(** * Railways and airports: shortest trips by level-marked BFS

    A shallow embedding of the two C programs of the repository:

    - [src/main.c]: the graph is one global, fixed-capacity structure with a
      flat neighbour array, filled in two passes (degree tally, prefix sums,
      placement); cities keep their 1-based input numbers and the airport hub
      is node 0;
    - [src/unnamed/part_000]: the graph is heap allocated, one growable
      neighbour array per node; cities are renumbered from 0 and the hub is
      the last node.

    Both files share, word for word, the circular buffer and the function
    [solve]; they only differ in how [solve] reads a node's degree and its
    i-th neighbour.  That difference is captured by the class [GraphRep].

    Conventions of the embedding.
    - C [int] values are modelled by [Z], [size_t] fields of the buffer by
      [nat].  No wrap-around is written out: on the inputs the arrays can
      hold (at most 100001 nodes) every value stays far below 2^31.
    - C arrays of [int] indexed by a city are total functions [Z -> Z]
      updated with [<[i:=v]>]; reading an index the C array does not have is
      undefined in C, and the theorems that depend on such reads carry the
      hypotheses that keep them out ([in_range], [valid_input]).
    - [malloc]/[calloc] are assumed to succeed.
    - [raise(SIGSEGV)] ends the run with the outcome [Sigsegv].
    - [main] takes the integers read; the scanner of stdin ([scan_init],
      [scan_int]) is modelled on the bytes of stdin, and [flat_program] and
      [dyn_program] run [main] on what the scanner reads. *)

From Stdlib Require Import ZArith String DecimalString DecimalZ Sorted.
From stdpp Require Import base list functions.

#[local] Set Warnings "-clear-no-such-hyp".

Local Open Scope Z_scope.

(** ** Constants of both files *)

Definition DEFAULT_CAPACITY : nat := 128.
Definition IMPOSSIBLE : Z := -1.

(** ** The circular buffer *)

Module Ring.

Record circular_buffer_t := CircularBuffer {
  capacity : nat;     (* how many items fit *)
  start : nat;        (* index of the first item *)
  size : nat;         (* how many items are stored *)
  elements : list Z   (* the backing store *)
}.

(** [memcpy(&dst[pos], src, n * sizeof(int))] *)
Definition memcpy (dst : list Z) (pos : nat) (src : list Z) (n : nat) : list Z :=
  take pos dst ++ take n src ++ drop (pos + n)%nat dst.

Definition make_circular_buffer (cap : nat) : option circular_buffer_t :=
  if (cap =? 0)%nat then None
  else Some {| capacity := cap; size := 0; start := 0;
               elements := replicate cap 0 |}.

(** The growth branch of [circular_buffer_enqueue]: a zeroed store of twice
    the capacity receives the old store twice, side by side. *)
Definition grow (buffer : circular_buffer_t) : circular_buffer_t :=
  let space := replicate (capacity buffer * 2) 0 in
  let space := memcpy space 0 (elements buffer) (capacity buffer) in
  let space := memcpy space (capacity buffer) (elements buffer) (capacity buffer) in
  {| capacity := capacity buffer * 2; start := start buffer;
     size := size buffer; elements := space |}.

Definition circular_buffer_enqueue (buffer : circular_buffer_t) (element : Z)
  : circular_buffer_t :=
  let buffer := if (capacity buffer =? size buffer)%nat then grow buffer else buffer in
  let index := ((start buffer + size buffer) mod capacity buffer)%nat in
  {| capacity := capacity buffer; start := start buffer;
     size := S (size buffer);
     elements := <[index := element]> (elements buffer) |}.

(** [None] is the [raise(SIGSEGV)] of a dequeue on an empty buffer. *)
Definition circular_buffer_dequeue (buffer : circular_buffer_t)
  : option (Z * circular_buffer_t) :=
  if (size buffer =? 0)%nat then None
  else
    let index := (start buffer mod capacity buffer)%nat in
    let item := elements buffer !!! index in
    Some (item, {| capacity := capacity buffer;
                   start := ((start buffer + 1) mod capacity buffer)%nat;
                   size := (size buffer - 1)%nat;
                   elements := elements buffer |}).

(** The items of the buffer, oldest first. *)
Definition contents (buffer : circular_buffer_t) : list Z :=
  (λ i, elements buffer !!! ((start buffer + i) mod capacity buffer)%nat)
    <$> seq 0 (size buffer).

(** The representation invariant of a buffer made by [make_circular_buffer]
    and used through enqueue and dequeue only. *)
Definition wf (buffer : circular_buffer_t) : Prop :=
  (0 < capacity buffer)%nat ∧ length (elements buffer) = capacity buffer ∧
  (size buffer ≤ capacity buffer)%nat ∧ (start buffer < capacity buffer)%nat.

(** A client's view of a run of queue operations. *)
Inductive op := Enqueue (element : Z) | Dequeue.

(** Runs the operations on the buffer and collects what the dequeues
    return; [None] when a dequeue hits the empty buffer. *)
Fixpoint run (ops : list op) (buffer : circular_buffer_t) : option (list Z) :=
  match ops with
  | [] => Some []
  | Enqueue x :: ops => run ops (circular_buffer_enqueue buffer x)
  | Dequeue :: ops =>
      match circular_buffer_dequeue buffer with
      | None => None
      | Some (item, buffer) => cons item <$> run ops buffer
      end
  end.

(** The same operations on the textbook FIFO queue, a list with insertion at
    the back and removal at the front. *)
Fixpoint fifo (ops : list op) (q : list Z) : option (list Z) :=
  match ops with
  | [] => Some []
  | Enqueue x :: ops => fifo ops (q ++ [x])
  | Dequeue :: ops =>
      match q with
      | [] => None
      | item :: q => cons item <$> fifo ops q
      end
  end.

End Ring.

(** ** What [solve] needs from a graph *)

Class GraphRep (G : Type) := {
  node_count : G → nat;          (* [graph.size] *)
  degree_of : G → Z → Z;         (* the degree field of a city *)
  neighbour_of : G → Z → Z → Z   (* the i-th neighbour of a city *)
}.

(** The neighbours [solve] scans for a city, in scan order. *)
Definition adj `{GraphRep G} (g : G) (city : Z) : list Z :=
  neighbour_of g city <$> seqZ 0 (degree_of g city).

(** ** The solver *)

Record solve_state := SolveState {
  queue : Ring.circular_buffer_t;
  distance : Z;
  visited : Z → bool
}.

Inductive status :=
| Next (st : solve_state)   (* the loop goes on *)
| Done (r : Z)              (* [return r] *)
| Fatal.                    (* [raise(SIGSEGV)] *)

Inductive outcome :=
| Returned (r : Z)
| Sigsegv
| OutOfFuel.

Section Solver.
Context `{GraphRep G} (graph : G).

(** One round of the [for] loop over the neighbours of [head]. *)
Definition scan_neighbour (head : Z) (qv : Ring.circular_buffer_t * (Z → bool)) (i : Z)
  : Ring.circular_buffer_t * (Z → bool) :=
  let city := neighbour_of graph head i in
  if qv.2 city then qv
  else (Ring.circular_buffer_enqueue qv.1 city, <[city := true]> qv.2).

(** The body of the [while] loop. *)
Definition loop_body (until : Z) (st : solve_state) : status :=
  match Ring.circular_buffer_dequeue (queue st) with
  | None => Fatal
  | Some (head, q) =>
      if head <? 0 then
        Next {| queue := q; distance := - head; visited := visited st |}
      else if head =? until then
        Done (distance st - 1)
      else
        let q := if 0 <? degree_of graph head
                 then Ring.circular_buffer_enqueue q (- distance st - 1)
                 else q in
        let qv := fold_left (scan_neighbour head)
                            (seqZ 0 (degree_of graph head)) (q, visited st) in
        Next {| queue := qv.1; distance := distance st; visited := qv.2 |}
  end.

(** The [while (queue->size > 0)] loop, at most [fuel] rounds of it. *)
Fixpoint solve_loop (fuel : nat) (until : Z) (st : solve_state) : outcome :=
  match fuel with
  | O => OutOfFuel
  | S fuel =>
      if (0 <? Ring.size (queue st))%nat then
        match loop_body until st with
        | Next st => solve_loop fuel until st
        | Done r => Returned r
        | Fatal => Sigsegv
        end
      else Returned IMPOSSIBLE
  end.

(** The states at the head of the loop, in the order the run meets them. *)
Fixpoint solve_run (fuel : nat) (until : Z) (st : solve_state) : list solve_state :=
  match fuel with
  | O => []
  | S fuel =>
      st :: (if (0 <? Ring.size (queue st))%nat then
               match loop_body until st with
               | Next st => solve_run fuel until st
               | _ => []
               end
             else [])
  end.

(** The state when the loop is first entered; [None] when the queue could
    not be made. *)
Definition solve_init (from : Z) : option solve_state :=
  match Ring.make_circular_buffer DEFAULT_CAPACITY with
  | None => None
  | Some q =>
      Some {| queue := Ring.circular_buffer_enqueue q from;
              distance := 1;
              visited := λ _, false |}
  end.

Definition solve_fuel (fuel : nat) (from until : Z) : outcome :=
  match solve_init from with
  | None => Returned IMPOSSIBLE
  | Some st => solve_loop fuel until st
  end.

(** Every round either removes a marker, or removes a city and adds one
    marker and the cities it marks visited, so that on a graph whose
    neighbours are all nodes the loop is entered at most
    [2 * node_count + 2] times before the queue is found empty
    (theorem [solve_fuel_enough]). *)
Definition solve_budget : nat := (2 * node_count graph + 3)%nat.

Definition solve (from until : Z) : outcome :=
  solve_fuel solve_budget from until.

(** The states of the run of [solve], for at most [fuel] rounds. *)
Definition solve_states (fuel : nat) (from until : Z) : list solve_state :=
  match solve_init from with
  | None => []
  | Some st => solve_run fuel until st
  end.

End Solver.

(** ** The end of [main]: printing the result *)

Definition newline : string := String (Ascii.ascii_of_nat 10) EmptyString.

Definition print_result (result : Z) : string :=
  if result =? IMPOSSIBLE then ("Impossible" ++ newline)%string
  else (NilZero.string_of_int (Z.to_int result) ++ newline)%string.

Definition print_outcome (o : outcome) : option string :=
  match o with
  | Returned r => Some (print_result r)
  | _ => None
  end.

(** ** [src/main.c]: the flat, fixed-capacity graph *)

Module Flat.

Definition MAX_CITIES : Z := 100000 + 1.
Definition MAX_ROUTES : Z := 100000 + MAX_CITIES.

Record graph_t := Graph {
  size : nat;
  degrees : Z → Z;
  start : Z → Z;
  neighbours : Z → Z
}.

Record edge_t := Edge { from : Z; to : Z }.

(** The global [graph], zero initialised. *)
Definition graph : graph_t :=
  {| size := 0; degrees := λ _, 0; start := λ _, 0; neighbours := λ _, 0 |}.

Definition set_size (g : graph_t) (n : nat) : graph_t :=
  {| size := n; degrees := degrees g; start := start g; neighbours := neighbours g |}.
Definition set_degree (g : graph_t) (i v : Z) : graph_t :=
  {| size := size g; degrees := <[i := v]> (degrees g); start := start g;
     neighbours := neighbours g |}.
Definition set_start (g : graph_t) (i v : Z) : graph_t :=
  {| size := size g; degrees := degrees g; start := <[i := v]> (start g);
     neighbours := neighbours g |}.
Definition set_neighbour (g : graph_t) (i v : Z) : graph_t :=
  {| size := size g; degrees := degrees g; start := start g;
     neighbours := <[i := v]> (neighbours g) |}.

(** First loop of [main]: an airport adds one to the hub and to its city. *)
Definition tally_airport (g : graph_t) (city : Z) : graph_t :=
  let g := set_degree g 0 (degrees g 0 + 1) in
  set_degree g city (degrees g city + 1).

(** Second loop: a route adds one to both ends. *)
Definition tally_edge (g : graph_t) (e : edge_t) : graph_t :=
  let g := set_degree g (from e) (degrees g (from e) + 1) in
  set_degree g (to e) (degrees g (to e) + 1).

(** Third loop: prefix sums into [start], degrees reset to zero. *)
Definition offset_step (gs : graph_t * Z) (i : Z) : graph_t * Z :=
  let g := set_start gs.1 i gs.2 in
  let s := gs.2 + degrees g i in
  (set_degree g i 0, s).

(** Fourth loop: both ends of a route are written at the cursors read
    before either write. *)
Definition place_edge (g : graph_t) (edge : edge_t) : graph_t :=
  let from_index := start g (from edge) + degrees g (from edge) in
  let to_index := start g (to edge) + degrees g (to edge) in
  let g := set_neighbour g from_index (to edge) in
  let g := set_neighbour g to_index (from edge) in
  let g := set_degree g (from edge) (degrees g (from edge) + 1) in
  set_degree g (to edge) (degrees g (to edge) + 1).

(** Fifth loop: the same for the link between the hub 0 and an airport. *)
Definition place_airport (g : graph_t) (airport : Z) : graph_t :=
  let from_index := start g 0 + degrees g 0 in
  let to_index := start g airport + degrees g airport in
  let g := set_neighbour g from_index airport in
  let g := set_neighbour g to_index 0 in
  let g := set_degree g 0 (degrees g 0 + 1) in
  set_degree g airport (degrees g airport + 1).

Definition edges_of (routes : list (Z * Z)) : list edge_t :=
  (λ r, {| from := r.1; to := r.2 |}) <$> routes.

(** The graph [main] has built when it calls [solve]. *)
Definition build (n : Z) (airports : list Z) (routes : list (Z * Z)) : graph_t :=
  let edges := edges_of routes in
  let g := set_size graph (Z.to_nat (n + 1)) in
  let g := fold_left tally_airport airports g in
  let g := fold_left tally_edge edges g in
  let g := (fold_left offset_step (seqZ 0 (n + 2)) (g, 0)).1 in
  let g := fold_left place_edge edges g in
  fold_left place_airport airports g.

#[global] Instance rep : GraphRep graph_t := {|
  node_count := size;
  degree_of := degrees;
  neighbour_of g head i := neighbours g (start g head + i)
|}.

(** [main] on the integers [n], [s], [t], the airports and the routes read
    from stdin ([k] and [m] are the lengths of the two lists); the result
    is what is printed, if the run gets to print. *)
Definition main (n s t : Z) (airports : list Z) (routes : list (Z * Z))
  : option string :=
  print_outcome (solve (build n airports routes) s t).

End Flat.

(** ** [src/unnamed/part_000]: one growable neighbour array per node *)

Module Dyn.

Record graph_t := Graph {
  size : nat;
  capacity : Z → Z;
  degree : Z → Z;
  neighbours : Z → Z → Z
}.

Definition init_node (g : graph_t) (i : Z) : graph_t :=
  {| size := size g;
     capacity := <[i := Z.of_nat DEFAULT_CAPACITY]> (capacity g);
     degree := <[i := 0]> (degree g);
     neighbours := <[i := λ _, 0]> (neighbours g) |}.

Definition make_graph (size : nat) : graph_t :=
  fold_left init_node (seqZ 0 (Z.of_nat size))
    {| size := size; capacity := λ _, 0; degree := λ _, 0;
       neighbours := λ _ _, 0 |}.

(** [realloc] keeps what the array held. *)
Definition graph_ensure_capacity (g : graph_t) (city : Z) : graph_t :=
  if capacity g city =? degree g city then
    {| size := size g;
       capacity := <[city := capacity g city * 2]> (capacity g);
       degree := degree g;
       neighbours := neighbours g |}
  else g.

Definition set_neighbour (g : graph_t) (city i v : Z) : graph_t :=
  {| size := size g; capacity := capacity g; degree := degree g;
     neighbours := <[city := <[i := v]> (neighbours g city)]> (neighbours g) |}.
Definition set_degree (g : graph_t) (city v : Z) : graph_t :=
  {| size := size g; capacity := capacity g;
     degree := <[city := v]> (degree g); neighbours := neighbours g |}.

Definition graph_add_railway (g : graph_t) (from until : Z) : graph_t :=
  let g := graph_ensure_capacity g from in
  let g := graph_ensure_capacity g until in
  let g := set_neighbour g from (degree g from) until in
  let g := set_neighbour g until (degree g until) from in
  let g := set_degree g from (degree g from + 1) in
  set_degree g until (degree g until + 1).

Definition graph_add_airport (g : graph_t) (city : Z) : graph_t :=
  graph_add_railway g city (Z.of_nat (size g) - 1).

Definition build (n : Z) (airports : list Z) (routes : list (Z * Z)) : graph_t :=
  let g := make_graph (Z.to_nat (n + 1)) in
  let g := fold_left (λ g tmp, graph_add_airport g (tmp - 1)) airports g in
  fold_left (λ g r, graph_add_railway g (r.1 - 1) (r.2 - 1)) routes g.

#[global] Instance rep : GraphRep graph_t := {|
  node_count := size;
  degree_of := degree;
  neighbour_of g head i := neighbours g head i
|}.

Definition main (n s t : Z) (airports : list Z) (routes : list (Z * Z))
  : option string :=
  print_outcome (solve (build n airports routes) (s - 1) (t - 1)).

End Dyn.

(** ** Observing a run *)

(** The markers and the cities among queue entries. *)
Definition markers (q : list Z) : list Z := List.filter (λ x, x <? 0) q.
Definition cities (q : list Z) : list Z := List.filter (λ x, 0 <=? x) q.

(** The entry a state is about to dequeue. *)
Definition head_of (st : solve_state) : Z := hd 0 (Ring.contents (queue st)).

(** The rounds of a run: each state with the state that follows it. *)
Definition rounds (run : list solve_state) : list (solve_state * solve_state) :=
  zip run (tail run).

(** What a round has enqueued: the queue after it, without what was left of
    the queue before it. *)
Definition pushed (r : solve_state * solve_state) : list Z :=
  drop (length (Ring.contents (queue r.1)) - 1) (Ring.contents (queue r.2)).

(** All that was enqueued while the cities of one frontier were dequeued,
    the frontier being the cities dequeued at the value [d] of [distance]. *)
Definition frontier_pushes (run : list solve_state) (d : Z) : list Z :=
  concat (pushed <$> List.filter (λ r, (distance r.1 =? d) && (0 <=? head_of r.1))
                                 (rounds run)).

(** One marker for a frontier that enqueues cities, none for a frontier that
    enqueues no city. *)
Definition one_marker_per_frontier (run : list solve_state) : Prop :=
  ∀ d, length (markers (frontier_pushes run d)) =
       match cities (frontier_pushes run d) with [] => 0%nat | _ => 1%nat end.

(** The cities a scan of the neighbours [ns] enqueues when it starts from
    the flags [V]. *)
Fixpoint fresh (V : Z → bool) (ns : list Z) : list Z :=
  match ns with
  | [] => []
  | n :: ns => if V n then fresh V ns else n :: fresh (<[n := true]> V) ns
  end.

(** The flags after the scan. *)
Definition mark (V : Z → bool) (ns : list Z) : Z → bool :=
  fold_left (λ (V : Z → bool) (n : Z), if V n then V else <[n := true]> V) ns V.

(** ** Graphs and shortest walks *)

(** [walk g a k b]: [b] is reached from [a] by following [k] neighbour
    entries. *)
Inductive walk `{GraphRep G} (g : G) (a : Z) : nat → Z → Prop :=
| walk_here : walk g a 0 a
| walk_more k u v : walk g a k u → v ∈ adj g u → walk g a (S k) v.

(** [k] is the least number of hops from [a] to [b]. *)
Definition hops `{GraphRep G} (g : G) (a b : Z) (k : nat) : Prop :=
  walk g a k b ∧ ∀ j, (j < k)%nat → ¬ walk g a j b.

(** What [solve] is meant to return: the least number of hops, or
    [IMPOSSIBLE] when there is no walk at all. *)
Definition shortest `{GraphRep G} (g : G) (a b : Z) (r : Z) : Prop :=
  (r = IMPOSSIBLE ∧ ∀ k, ¬ walk g a k b) ∨ (∃ k, r = Z.of_nat k ∧ hops g a b k).

(** Every neighbour entry is a city number, not a marker. *)
Definition cities_only `{GraphRep G} (g : G) : Prop :=
  ∀ c n, n ∈ adj g c → 0 ≤ n.

(** Every neighbour entry is a node of the graph, so that [visited] is only
    indexed inside its [graph.size] cells. *)
Definition in_range `{GraphRep G} (g : G) : Prop :=
  ∀ c n, n ∈ adj g c → 0 ≤ n < Z.of_nat (node_count g).

(** The adjacency is symmetric: the graph is undirected. *)
Definition undirected `{GraphRep G} (g : G) : Prop :=
  ∀ u v, v ∈ adj g u → u ∈ adj g v.

(** ** The bound on the rounds of the loop *)

(** How many of the cities of [l] are not flagged. *)
Definition unflagged (V : Z → bool) (l : list Z) : nat :=
  length (List.filter (λ c, negb (V c)) l).

(** A marker weighs 1 and a city 2. *)
Definition weight (q : list Z) : nat :=
  sum_list_with (λ x, if x <? 0 then 1%nat else 2%nat) q.

(** The rounds the loop can still make: twice the unflagged nodes plus the
    weight of the queue. *)
Definition rounds_left `{GraphRep G} (g : G) (st : solve_state) : nat :=
  (2 * unflagged (visited st) (seqZ 0 (Z.of_nat (node_count g)))
   + weight (Ring.contents (queue st)))%nat.

(** ** The invariant of the loop *)

Section Invariant.
Context {G : Type} {HG : GraphRep G} (g : G) (s t : Z).

(** A city of the queue section that belongs to level [l]: it is [l] hops
    from the source, or it is the source itself, which is not flagged when
    it is first enqueued and so may come back once. *)
Definition at_level (l : nat) (x : Z) : Prop := hops g s x l ∨ x = s.

(** A queue entry of the section of level [l]: the marker [m] of the
    section, or a city of that level. *)
Definition entry_ok (m : Z) (l : nat) (x : Z) : Prop :=
  x = m ∨ (0 ≤ x ∧ at_level l x).

(** The city has been dequeued: it is not the destination and all its
    neighbours are flagged. *)
Definition finished (V : Z → bool) (v : Z) : Prop :=
  v ≠ t ∧ ∀ n, n ∈ adj g v → V n = true.

(** The queue is [A ++ B]: [A] is what is left of level [l], [B] is level
    [l + 1] as far as it has been discovered, led by its marker. *)
Record inv (l : nat) (A B : list Z) (d : Z) (V : Z → bool) : Prop := {
  inv_dist : d = Z.of_nat l + 1;
  inv_front : ∀ x, x ∈ A → entry_ok (- d) l x;
  inv_back : ∀ x, x ∈ B → entry_ok (- d - 1) (S l) x;
  inv_lead : ∀ x B0, B = x :: B0 → x = - d - 1;
  inv_seen : ∀ v, V v = true → v = s ∨ ∃ k, (1 ≤ k ≤ S l)%nat ∧ hops g s v k;
  inv_near : ∀ v j, (1 ≤ j ≤ l)%nat → walk g s j v → V v = true ∨ v = s;
  inv_todo : ∀ v j, (j ≤ l)%nat → walk g s j v → v ∈ A ∨ finished V v;
  inv_next : ∀ v, V v = true → hops g s v (S l) → v ∈ B;
  inv_same : s ≠ t ∨ (A = [s] ∧ l = 0%nat)
}.

Definition good (st : solve_state) : Prop :=
  Ring.wf (queue st) ∧
  ∃ l A B, Ring.contents (queue st) = A ++ B ∧ inv l A B (distance st) (visited st).

End Invariant.

Arguments inv_dist {G HG g s t l A B d V} _.
Arguments inv_front {G HG g s t l A B d V} _.
Arguments inv_back {G HG g s t l A B d V} _.
Arguments inv_lead {G HG g s t l A B d V} _.
Arguments inv_seen {G HG g s t l A B d V} _.
Arguments inv_near {G HG g s t l A B d V} _.
Arguments inv_todo {G HG g s t l A B d V} _.
Arguments inv_next {G HG g s t l A B d V} _.
Arguments inv_same {G HG g s t l A B d V} _.

(** ** The links of a graph *)

(** The partners of city [c] in a list of links, in the order of the list. *)
Fixpoint ends (L : list (Z * Z)) (c : Z) : list Z :=
  match L with
  | [] => []
  | l :: L =>
      (if decide (l.1 = c) then [l.2] else []) ++
      (if decide (l.2 = c) then [l.1] else []) ++ ends L c
  end.

(** All ends of the links lie between [lo] and [hi]. *)
Definition links_within (lo hi : Z) (L : list (Z * Z)) : Prop :=
  ∀ l, l ∈ L → lo ≤ l.1 ≤ hi ∧ lo ≤ l.2 ≤ hi.

(** Sum of [D 0 .. D (k - 1)]. *)
Fixpoint prefix (D : Z → Z) (k : nat) : Z :=
  match k with
  | O => 0
  | S k => prefix D k + D (Z.of_nat k)
  end.

Definition link_of (e : Flat.edge_t) : Z * Z := (Flat.from e, Flat.to e).

(** The flat graph holds the links of [L] in slices that start at [S0]:
    every cursor counts the partners placed so far and every slice lists
    them in order. *)
Definition placed (S0 : Z → Z) (g : Flat.graph_t) (L : list (Z * Z)) : Prop :=
  Flat.start g = S0 ∧
  (∀ c, Flat.degrees g c = Z.of_nat (length (ends L c))) ∧
  (∀ c i, (i < length (ends L c))%nat →
          Flat.neighbours g (S0 c + Z.of_nat i) = ends L c !!! i).

(** The dynamic graph holds the links of [L]. *)
Definition holds (g : Dyn.graph_t) (L : list (Z * Z)) : Prop :=
  (∀ c, Dyn.degree g c = Z.of_nat (length (ends L c))) ∧
  (∀ c i, (i < length (ends L c))%nat →
          Dyn.neighbours g c (Z.of_nat i) = ends L c !!! i).

(** ** The inputs *)

(** The inputs both programs are written for: cities are numbered from 1 to
    [n], a route joins two different cities, and the counts fit the fixed
    arrays of [src/main.c]. *)
Definition valid_input (n s t : Z) (airports : list Z) (routes : list (Z * Z)) : Prop :=
  1 ≤ s ≤ n ∧ 1 ≤ t ≤ n ∧ n + 1 ≤ Flat.MAX_CITIES ∧
  (∀ a, a ∈ airports → 1 ≤ a ≤ n) ∧
  (∀ r, r ∈ routes → 1 ≤ r.1 ≤ n ∧ 1 ≤ r.2 ≤ n ∧ r.1 ≠ r.2) ∧
  Z.of_nat (length routes) + Z.of_nat (length airports) ≤ Flat.MAX_ROUTES.

(** The links [src/main.c] places, in placement order. *)
Definition flat_links (airports : list Z) (routes : list (Z * Z)) : list (Z * Z) :=
  routes ++ ((λ a, (0, a)) <$> airports).

(** The links [src/unnamed/part_000] adds, in the order it adds them. *)
Definition dyn_links (n : Z) (airports : list Z) (routes : list (Z * Z)) : list (Z * Z) :=
  ((λ a, (a - 1, n)) <$> airports) ++ ((λ r, (r.1 - 1, r.2 - 1)) <$> routes).

(** The renumbering between the two programs: [src/main.c] keeps the input
    numbers 1..n and uses 0 for the hub, [part_000] uses 0..n-1 and [n]. *)
Definition to_dyn (n c : Z) : Z := if decide (c = 0) then n else c - 1.
Definition to_flat (n c : Z) : Z := if decide (c = n) then 0 else c + 1.

(** ** The scanner of stdin (both files) *)

Definition BUFFER_SIZE : Z := 16 * 4096.
Definition INT_MAX : Z := 2147483647.

(** [input_buffer], the position [input_ptr] in it, and the bytes of stdin
    that no [fread] has taken yet. *)
Record scanner_t := Scanner {
  input_buffer : Z → Z;
  input_ptr : Z;
  stdin : list Z
}.

(** The position [input_ptr_end] points to: the last cell of the buffer. *)
Definition input_ptr_end : Z := BUFFER_SIZE - 1.

(** The globals before [main] runs, on the bytes [bytes] of stdin. *)
Definition scanner_start (bytes : list Z) : scanner_t :=
  {| input_buffer := λ _, 0; input_ptr := 0; stdin := bytes |}.

Definition set_char (sc : scanner_t) (i c : Z) : scanner_t :=
  {| input_buffer := <[i := c]> (input_buffer sc); input_ptr := input_ptr sc;
     stdin := stdin sc |}.
Definition set_ptr (sc : scanner_t) (p : Z) : scanner_t :=
  {| input_buffer := input_buffer sc; input_ptr := p; stdin := stdin sc |}.

(** [fread(input_buffer, sizeof(char), BUFFER_SIZE - 1, stdin)]: the next
    bytes, at most [BUFFER_SIZE - 1] of them and fewer only at the end of
    stdin, are copied to the front of the buffer; the cells behind them keep
    what they held.  Returns the number of bytes read. *)
Definition fread (sc : scanner_t) : Z * scanner_t :=
  let chunk := take (Z.to_nat (BUFFER_SIZE - 1)) (stdin sc) in
  (Z.of_nat (length chunk),
   {| input_buffer := λ i, if decide (0 ≤ i < Z.of_nat (length chunk))
                           then chunk !!! Z.to_nat i else input_buffer sc i;
      input_ptr := input_ptr sc;
      stdin := drop (Z.to_nat (BUFFER_SIZE - 1)) (stdin sc) |}).

Definition scan_init (sc : scanner_t) : scanner_t :=
  let sc := set_char sc (BUFFER_SIZE - 1) 0 in
  let sc := (fread sc).2 in
  set_ptr sc 0.

(** [++input_ptr] and the refill that follows it in both loops of
    [scan_int]. *)
Definition advance (sc : scanner_t) : scanner_t :=
  let sc := set_ptr sc (input_ptr sc + 1) in
  if input_ptr sc =? input_ptr_end then
    let r := fread sc in
    let sc := if r.1 =? 0 then set_char r.2 0 0 else r.2 in
    set_ptr sc 0
  else sc.

(** The first loop of [scan_int]: over what is not a digit. *)
Fixpoint skip_junk (fuel : nat) (sc : scanner_t) : option scanner_t :=
  match fuel with
  | O => None
  | S fuel =>
      let c := input_buffer sc (input_ptr sc) in
      if (c <? 48) || (57 <? c) then skip_junk fuel (advance sc)
      else Some sc
  end.

(** The second loop: over the digits, ['0'] being 48.  The [int n] is a
    [Z]: what is proved of it is about numbers up to [INT_MAX], which
    [n *= 10] does not overflow. *)
Fixpoint take_digits (fuel : nat) (n : Z) (sc : scanner_t) : option (Z * scanner_t) :=
  match fuel with
  | O => None
  | S fuel =>
      let c := input_buffer sc (input_ptr sc) in
      if (48 <=? c) && (c <=? 57) then
        take_digits fuel (n * 10 + (c - 48)) (advance sc)
      else Some (n, sc)
  end.

(** [None]: a loop has not ended within [fuel] rounds. *)
Definition scan_int (fuel : nat) (sc : scanner_t) : option (Z * scanner_t) :=
  sc ← skip_junk fuel sc; take_digits fuel 0 sc.

(** [count] calls of [scan_int]. *)
Fixpoint scan_ints (fuel : nat) (count : nat) (sc : scanner_t)
  : option (list Z * scanner_t) :=
  match count with
  | O => Some ([], sc)
  | S count =>
      r ← scan_int fuel sc;
      rs ← scan_ints fuel count r.2;
      Some (r.1 :: rs.1, rs.2)
  end.

(** [count] times two calls of [scan_int], as the loop over the routes
    makes them. *)
Fixpoint scan_pairs (fuel : nat) (count : nat) (sc : scanner_t)
  : option (list (Z * Z) * scanner_t) :=
  match count with
  | O => Some ([], sc)
  | S count =>
      a ← scan_int fuel sc;
      b ← scan_int fuel a.2;
      rs ← scan_pairs fuel count b.2;
      Some ((a.1, b.1) :: rs.1, rs.2)
  end.

(** The numbers [main] reads, in the order it reads them. *)
Record input_t := Input {
  in_n : Z; in_m : Z; in_k : Z; in_s : Z; in_t : Z;
  in_airports : list Z;
  in_routes : list (Z * Z)
}.

Definition read_input (fuel : nat) (bytes : list Z) : option input_t :=
  let sc := scan_init (scanner_start bytes) in
  n ← scan_int fuel sc;
  m ← scan_int fuel n.2;
  k ← scan_int fuel m.2;
  s ← scan_int fuel k.2;
  t ← scan_int fuel s.2;
  airports ← scan_ints fuel (Z.to_nat k.1) t.2;
  routes ← scan_pairs fuel (Z.to_nat m.1) airports.2;
  Some {| in_n := n.1; in_m := m.1; in_k := k.1; in_s := s.1; in_t := t.1;
          in_airports := airports.1; in_routes := routes.1 |}.

(** The two programs from the bytes of stdin to the line printed. *)
Definition flat_program (fuel : nat) (bytes : list Z) : option string :=
  i ← read_input fuel bytes;
  Flat.main (in_n i) (in_s i) (in_t i) (in_airports i) (in_routes i).

Definition dyn_program (fuel : nat) (bytes : list Z) : option string :=
  i ← read_input fuel bytes;
  Dyn.main (in_n i) (in_s i) (in_t i) (in_airports i) (in_routes i).

(** The bytes of a text. *)
Definition bytes_of (text : string) : list Z :=
  (λ a, Z.of_nat (Ascii.nat_of_ascii a)) <$> list_ascii_of_string text.

(** *** What the scanner is meant to read *)

Definition is_digit (c : Z) : Prop := 48 ≤ c ≤ 57.

(** The number written by the digits [ds]. *)
Definition decimal (ds : list Z) : Z :=
  fold_left (λ n c, n * 10 + (c - 48)) ds 0.

(** [reads bytes nums]: the bytes hold, in order, the numbers [nums], each
    written in digits, preceded by any bytes that are not digits and
    followed by at least one. *)
Inductive reads : list Z → list Z → Prop :=
| reads_done bytes : reads bytes []
| reads_more junk ds c rest nums :
    Forall (λ x, ¬ is_digit x) junk → Forall is_digit ds → ds ≠ [] →
    ¬ is_digit c → reads (c :: rest) nums →
    reads (junk ++ ds ++ c :: rest) (decimal ds :: nums).

(** The bytes of the buffer and of stdin that [scan_int] has not passed,
    when the last [fread] has filled [filled] cells. *)
Definition pending (filled : Z) (sc : scanner_t) : list Z :=
  (input_buffer sc <$> seqZ (input_ptr sc) (filled - input_ptr sc)) ++ stdin sc.

(** The position is inside what the last [fread] filled, and a [fread] that
    did not fill the buffer has emptied stdin. *)
Definition fed (filled : Z) (sc : scanner_t) : Prop :=
  0 ≤ input_ptr sc ≤ filled ∧ filled ≤ BUFFER_SIZE - 1 ∧
  input_ptr sc < BUFFER_SIZE - 1 ∧
  (filled < BUFFER_SIZE - 1 → stdin sc = []).

(** The numbers of an input, in the order [main] reads them. *)
Definition input_numbers (n s t : Z) (airports : list Z) (routes : list (Z * Z))
  : list Z :=
  [n; Z.of_nat (length routes); Z.of_nat (length airports); s; t]
  ++ airports ++ concat ((λ r : Z * Z, [r.1; r.2]) <$> routes).

(** ** More observations *)

(** The buffer after a run of operations; [None] when a dequeue hits the
    empty buffer. *)
Fixpoint ring_after (ops : list Ring.op) (buffer : Ring.circular_buffer_t)
  : option Ring.circular_buffer_t :=
  match ops with
  | [] => Some buffer
  | Ring.Enqueue x :: ops => ring_after ops (Ring.circular_buffer_enqueue buffer x)
  | Ring.Dequeue :: ops =>
      match Ring.circular_buffer_dequeue buffer with
      | None => None
      | Some (_, buffer) => ring_after ops buffer
      end
  end.

(** The largest number of items held at once during the operations, from
    [len] items at the start. *)
Fixpoint peak (ops : list Ring.op) (len : nat) : nat :=
  match ops with
  | [] => len
  | Ring.Enqueue _ :: ops => Nat.max len (peak ops (S len))
  | Ring.Dequeue :: ops => Nat.max len (peak ops (len - 1))
  end.

(** Every node of the dynamic graph has room for its neighbours, and its
    capacity is the first one or at most twice its degree, less two. *)
Definition roomy (g : Dyn.graph_t) : Prop :=
  ∀ c, 0 ≤ c < Z.of_nat (Dyn.size g) →
       0 ≤ Dyn.degree g c ≤ Dyn.capacity g c ∧
       (Dyn.capacity g c = Z.of_nat DEFAULT_CAPACITY ∨
        Dyn.capacity g c ≤ 2 * (Dyn.degree g c - 1)).

(** * The circular buffer is a FIFO queue *)

Section RingFacts.
Import Ring.

Lemma mod_twice (a c : nat) :
  (0 < c)%nat → (a < 2 * c)%nat → (a mod c)%nat = if (a <? c)%nat then a else (a - c)%nat.
Proof.
  intros Hc Ha. destruct (Nat.ltb_spec a c) as [Hlt|Hge].
  - by apply Nat.mod_small.
  - symmetry. apply (Nat.mod_unique a c 1); lia.
Qed.

Lemma length_contents b : length (contents b) = size b.
Proof. unfold contents. by rewrite length_fmap, length_seq. Qed.

Lemma contents_nil b : size b = 0%nat → contents b = [].
Proof. unfold contents. by intros ->. Qed.

Lemma make_circular_buffer_wf cap b :
  make_circular_buffer cap = Some b → wf b ∧ contents b = [].
Proof.
  unfold make_circular_buffer. destruct (Nat.eqb_spec cap 0); [done|].
  intros [= <-]. split; [|done].
  unfold wf; simpl. rewrite length_replicate. lia.
Qed.

Lemma grow_elements b :
  wf b → elements (grow b) = elements b ++ elements b.
Proof.
  intros (Hc & Hl & Hs & Hst). unfold grow, memcpy; simpl.
  rewrite (take_ge (elements b)) by lia.
  rewrite (take_app_length' (elements b)) by done.
  rewrite drop_app_ge by lia.
  rewrite !drop_replicate, Hl.
  replace (capacity b * 2 - capacity b - (capacity b + capacity b - capacity b))%nat
    with 0%nat by lia.
  simpl. by rewrite app_nil_r.
Qed.

Lemma grow_wf b :
  wf b → size b = capacity b → wf (grow b) ∧ (size (grow b) < capacity (grow b))%nat.
Proof.
  intros Hwf Hfull. pose proof (grow_elements b Hwf) as He.
  destruct Hwf as (Hc & Hl & Hs & Hst).
  unfold wf. rewrite He, length_app. simpl. lia.
Qed.

Lemma grow_contents b : wf b → contents (grow b) = contents b.
Proof.
  intros Hwf. unfold contents. rewrite (grow_elements b Hwf).
  destruct Hwf as (Hc & Hl & Hs & Hst). simpl.
  apply list_fmap_ext. intros i k Hk.
  apply lookup_seq in Hk as [-> Hk]. simpl.
  rewrite (Nat.mod_small (start b + i) (capacity b * 2)) by lia.
  rewrite (mod_twice (start b + i) (capacity b)) by lia.
  destruct (Nat.ltb_spec (start b + i) (capacity b)).
  - by rewrite lookup_total_app_l by lia.
  - rewrite lookup_total_app_r by lia. by rewrite Hl.
Qed.

Lemma enqueue_room b x :
  wf b → (size b < capacity b)%nat →
  wf (circular_buffer_enqueue b x) ∧
  contents (circular_buffer_enqueue b x) = contents b ++ [x].
Proof.
  intros (Hc & Hl & Hs & Hst) Hroom.
  unfold circular_buffer_enqueue.
  destruct (Nat.eqb_spec (capacity b) (size b)) as [Heq|_]; [lia|].
  split.
  - unfold wf; simpl. rewrite length_insert. lia.
  - unfold contents; cbn [capacity start size elements].
    rewrite seq_S, fmap_app. f_equal.
    + apply list_fmap_ext. intros i k Hk.
      apply lookup_seq in Hk as [-> Hk]. simpl.
      apply list_lookup_total_insert_ne.
      rewrite !mod_twice by lia.
      destruct (Nat.ltb_spec (start b + size b) (capacity b)),
               (Nat.ltb_spec (start b + i) (capacity b)); lia.
    + simpl. f_equal. apply list_lookup_total_insert_eq.
      rewrite Hl. by apply Nat.mod_upper_bound, Nat.neq_0_lt_0.
Qed.

Lemma enqueue_spec b x :
  wf b →
  wf (circular_buffer_enqueue b x) ∧
  contents (circular_buffer_enqueue b x) = contents b ++ [x].
Proof.
  intros Hwf.
  destruct (decide (capacity b = size b)) as [Hfull|Hroom].
  - destruct (grow_wf b Hwf (eq_sym Hfull)) as [Hg Hlt].
    destruct (enqueue_room (grow b) x Hg Hlt) as [Hwf' Hc'].
    assert (circular_buffer_enqueue b x = circular_buffer_enqueue (grow b) x) as ->.
    { unfold circular_buffer_enqueue at 1.
      rewrite (proj2 (Nat.eqb_eq _ _) Hfull).
      unfold circular_buffer_enqueue.
      destruct (Nat.eqb_spec (capacity (grow b)) (size (grow b))); [lia|done]. }
    split; [done|]. by rewrite Hc', grow_contents.
  - apply enqueue_room; [done|]. destruct Hwf as (?&?&?&?). lia.
Qed.

Lemma dequeue_spec b :
  wf b → size b ≠ 0%nat →
  ∃ item b', circular_buffer_dequeue b = Some (item, b') ∧ wf b' ∧
             contents b = item :: contents b'.
Proof.
  intros (Hc & Hl & Hs & Hst) Hne.
  unfold circular_buffer_dequeue.
  destruct (Nat.eqb_spec (size b) 0) as [|_]; [done|].
  eexists _, _. split; [done|]. split.
  - unfold wf; simpl. split_and!; try lia.
    by apply Nat.mod_upper_bound, Nat.neq_0_lt_0.
  - unfold contents; simpl.
    destruct (size b) as [|n] eqn:Hsz; [done|]. simpl.
    rewrite Nat.add_0_r, Nat.sub_0_r. f_equal.
    rewrite <- fmap_S_seq, <- list_fmap_compose.
    apply list_fmap_ext. intros i k Hk.
    apply lookup_seq in Hk as [-> Hk]. simpl. f_equal.
    rewrite Nat.Div0.add_mod_idemp_l. f_equal. lia.
Qed.

Lemma dequeue_None b : circular_buffer_dequeue b = None ↔ size b = 0%nat.
Proof.
  unfold circular_buffer_dequeue. destruct (Nat.eqb_spec (size b) 0); naive_solver.
Qed.

(** Running any operations on a well-formed buffer is running them on the
    list of its contents. *)
Lemma run_fifo ops : ∀ b, wf b → run ops b = fifo ops (contents b).
Proof.
  induction ops as [|[x|] ops IH]; intros b Hwf; simpl.
  - done.
  - destruct (enqueue_spec b x Hwf) as [Hwf' Hc]. by rewrite IH, Hc.
  - destruct (decide (size b = 0%nat)) as [Hz|Hnz].
    + rewrite (proj2 (dequeue_None b) Hz). by rewrite contents_nil.
    + destruct (dequeue_spec b Hwf Hnz) as (item & b' & -> & Hwf' & ->).
      by rewrite IH.
Qed.
End RingFacts.

(** * One round of the loop, on the contents of the queue *)

Section StepFacts.
Context `{GraphRep G} (g : G).

Lemma mark_cons V n ns :
  mark V (n :: ns) = mark (if V n then V else <[n := true]> V) ns.
Proof. done. Qed.

Lemma mark_mono ns : ∀ V v, V v = true → mark V ns v = true.
Proof.
  induction ns as [|n ns IH]; intros V v Hv; [done|].
  rewrite mark_cons. apply IH. destruct (V n); [done|].
  destruct (decide (n = v)) as [->|Hne].
  - apply fn_lookup_insert.
  - by rewrite fn_lookup_insert_ne.
Qed.

Lemma mark_true ns : ∀ V v, mark V ns v = true ↔ V v = true ∨ (v ∈ ns ∧ V v = false).
Proof.
  induction ns as [|n ns IH]; intros V v.
  - simpl. split; [auto|]. intros [?|[Hin _]]; [done|]. by apply elem_of_nil in Hin.
  - rewrite mark_cons, IH, elem_of_cons. destruct (V n) eqn:Hn.
    + split; [naive_solver|]. intros [?|[[->|?] ?]]; [auto|congruence|auto].
    + destruct (decide (n = v)) as [->|Hne].
      * rewrite fn_lookup_insert. naive_solver.
      * rewrite fn_lookup_insert_ne by done. naive_solver.
Qed.

Lemma mark_elem V ns v : v ∈ ns → mark V ns v = true.
Proof.
  intros Hin. apply mark_true. destruct (V v); [by left|by right].
Qed.

Lemma fresh_elem ns : ∀ V x, x ∈ fresh V ns ↔ x ∈ ns ∧ V x = false.
Proof.
  induction ns as [|n ns IH]; intros V x; simpl.
  - split; [by intros ?%elem_of_nil|by intros [?%elem_of_nil _]].
  - destruct (V n) eqn:Hn.
    + rewrite IH, elem_of_cons. split; [naive_solver|].
      intros [[->|?] ?]; [congruence|auto].
    + rewrite !elem_of_cons, IH. destruct (decide (n = x)) as [->|Hne].
      * naive_solver.
      * rewrite fn_lookup_insert_ne by done. naive_solver.
Qed.

Lemma scan_spec head idx : ∀ q V,
  Ring.wf q →
  let qv := fold_left (scan_neighbour g head) idx (q, V) in
  Ring.wf qv.1 ∧
  Ring.contents qv.1 = Ring.contents q ++ fresh V (neighbour_of g head <$> idx) ∧
  qv.2 = mark V (neighbour_of g head <$> idx).
Proof.
  induction idx as [|i idx IH]; intros q V Hwf.
  - simpl. by rewrite app_nil_r.
  - cbn zeta. cbn [fold_left]. rewrite fmap_cons, mark_cons. cbn [fresh].
    replace (scan_neighbour g head (q, V) i)
      with (if V (neighbour_of g head i) then (q, V)
            else (Ring.circular_buffer_enqueue q (neighbour_of g head i),
                  <[neighbour_of g head i := true]> V)) by done.
    destruct (V (neighbour_of g head i)) eqn:Hv; [by apply IH|].
    destruct (enqueue_spec q (neighbour_of g head i) Hwf) as [Hwf' Hc].
    destruct (IH _ (<[neighbour_of g head i := true]> V) Hwf') as (? & ? & ?).
    split_and!; [done| |done].
    rewrite Hc, <- app_assoc in *. done.
Qed.

Lemma size_contents q : Ring.size q = length (Ring.contents q).
Proof. by rewrite length_contents. Qed.

Lemma loop_entered st :
  (0 <? Ring.size (queue st))%nat = true ↔ Ring.contents (queue st) ≠ [].
Proof.
  rewrite Nat.ltb_lt, size_contents.
  destruct (Ring.contents (queue st)); simpl; [split; [lia|done]|].
  split; [done|lia].
Qed.

Lemma dequeue_contents q head rest :
  Ring.wf q → Ring.contents q = head :: rest →
  ∃ q', Ring.circular_buffer_dequeue q = Some (head, q') ∧ Ring.wf q' ∧
        Ring.contents q' = rest.
Proof.
  intros Hwf Hc.
  assert (Ring.size q ≠ 0%nat) as Hnz by (rewrite size_contents, Hc; done).
  destruct (dequeue_spec q Hwf Hnz) as (item & q' & Hd & Hwf' & Hc').
  rewrite Hc in Hc'. injection Hc' as -> ->. eauto.
Qed.

Lemma loop_body_marker until st m rest :
  Ring.wf (queue st) → Ring.contents (queue st) = m :: rest → m < 0 →
  ∃ st', loop_body g until st = Next st' ∧ Ring.wf (queue st') ∧
         Ring.contents (queue st') = rest ∧ distance st' = - m ∧
         visited st' = visited st.
Proof.
  intros Hwf Hc Hm. destruct (dequeue_contents _ _ _ Hwf Hc) as (q' & Hd & Hwf' & Hc').
  unfold loop_body. rewrite Hd.
  destruct (Z.ltb_spec m 0); [|lia]. eauto 10.
Qed.

Lemma loop_body_found until st rest :
  Ring.wf (queue st) → Ring.contents (queue st) = until :: rest → 0 ≤ until →
  loop_body g until st = Done (distance st - 1).
Proof.
  intros Hwf Hc Hm. destruct (dequeue_contents _ _ _ Hwf Hc) as (q' & Hd & Hwf' & Hc').
  unfold loop_body. rewrite Hd.
  destruct (Z.ltb_spec until 0); [lia|]. by rewrite Z.eqb_refl.
Qed.

Lemma loop_body_city until st c rest :
  Ring.wf (queue st) → Ring.contents (queue st) = c :: rest → 0 ≤ c → c ≠ until →
  ∃ st', loop_body g until st = Next st' ∧ Ring.wf (queue st') ∧
         Ring.contents (queue st') =
           rest ++ (if 0 <? degree_of g c then [- distance st - 1] else [])
                ++ fresh (visited st) (adj g c) ∧
         distance st' = distance st ∧
         visited st' = mark (visited st) (adj g c).
Proof.
  intros Hwf Hc Hm Hne. destruct (dequeue_contents _ _ _ Hwf Hc) as (q' & Hd & Hwf' & Hc').
  unfold loop_body. rewrite Hd.
  destruct (Z.ltb_spec c 0); [lia|].
  destruct (Z.eqb_spec c until); [done|].
  eexists. split; [done|]. cbn [queue distance visited].
  set (q1 := if 0 <? degree_of g c then _ else _).
  assert (Ring.wf q1 ∧ Ring.contents q1 =
            rest ++ (if 0 <? degree_of g c then [- distance st - 1] else []))
    as [Hwf1 Hc1].
  { unfold q1. destruct (0 <? degree_of g c).
    - destruct (enqueue_spec q' (- distance st - 1) Hwf') as [? ->]. by rewrite Hc'.
    - by rewrite app_nil_r. }
  destruct (scan_spec c (seqZ 0 (degree_of g c)) q1 (visited st) Hwf1) as (? & Hc2 & ?).
  split_and!; [done| |done|done].
  rewrite Hc2, Hc1, <- app_assoc. done.
Qed.
End StepFacts.

(** * The loop computes the least number of hops *)

Section Walks.
Context `{GraphRep G} (g : G).

Lemma walk_zero a v : walk g a 0 v → v = a.
Proof. by inversion 1. Qed.

Lemma walk_pred a k v : walk g a (S k) v → ∃ u, walk g a k u ∧ v ∈ adj g u.
Proof. inversion 1; eauto. Qed.

Lemma walk_nonneg a k v : cities_only g → 0 ≤ a → walk g a k v → 0 ≤ v.
Proof. intros Hadj Ha. induction 1; eauto. Qed.

Lemma hops_unique a b k k' : hops g a b k → hops g a b k' → k = k'.
Proof.
  intros [Hw Hmin] [Hw' Hmin'].
  destruct (Nat.lt_trichotomy k k') as [Hlt|[->|Hlt]]; [|done|].
  - by destruct (Hmin' k Hlt).
  - by destruct (Hmin k' Hlt).
Qed.

Lemma hops_zero a : hops g a a 0.
Proof. split; [constructor|lia]. Qed.

Lemma shortest_unique a b r r' : shortest g a b r → shortest g a b r' → r = r'.
Proof.
  intros [[-> Hno]|(k & -> & Hk)] [[-> Hno']|(k' & -> & Hk')]; [done| | |].
  - by destruct (Hno k'), Hk'.
  - by destruct (Hno' k), Hk.
  - by rewrite (hops_unique a b k k').
Qed.
End Walks.

Section Correctness.
Context `{GraphRep G} (g : G) (s t : Z).
Hypothesis Hs : 0 ≤ s.
Hypothesis Hadj : cities_only g.

Lemma finished_mono V V' v :
  (∀ n, V n = true → V' n = true) → finished g t V v → finished g t V' v.
Proof. intros Hsub [? Hall]. split; auto. Qed.

Lemma fresh_level l A B d V x n :
  inv g s t l A B d V → at_level g s l x → n ∈ adj g x → V n = false →
  0 ≤ n ∧ at_level g s (S l) n.
Proof.
  intros Hinv Hx Hn Hv. split; [by eapply Hadj|].
  destruct (decide (n = s)) as [->|Hns]; [by right|]. left.
  assert (∀ j, (1 ≤ j ≤ l)%nat → ¬ walk g s j n) as Hfar.
  { intros j Hj Hw. destruct (inv_near Hinv n j Hj Hw); congruence. }
  split.
  - destruct Hx as [[Hw _]| ->]; [by econstructor|].
    destruct l as [|l]; [econstructor; [constructor|done]|].
    destruct (Hfar 1%nat); [lia|]. econstructor; [constructor|done].
  - intros j Hj Hw. destruct j as [|j].
    + by apply walk_zero in Hw.
    + apply (Hfar (S j)); [lia|done].
Qed.

Lemma good_init st : solve_init s = Some st → good g s t st.
Proof.
  unfold solve_init.
  destruct (Ring.make_circular_buffer DEFAULT_CAPACITY) as [q|] eqn:Hq; [|done].
  intros [= <-]. apply make_circular_buffer_wf in Hq as [Hwf Hc].
  destruct (enqueue_spec q s Hwf) as [Hwf' Hc']. rewrite Hc in Hc'.
  split; [done|]. exists 0%nat, [s], []. split; [done|].
  cbn [distance visited]. split.
  - done.
  - intros x ->%list_elem_of_singleton. right. split; [done|by right].
  - by intros x ?%elem_of_nil.
  - done.
  - done.
  - intros v j Hj. lia.
  - intros v j Hj Hw. replace j with 0%nat in Hw by lia.
    apply walk_zero in Hw as ->. left. by apply list_elem_of_singleton.
  - done.
  - by right.
Qed.

Lemma good_marker st m l A B st' :
  Ring.wf (queue st') → inv g s t l (m :: A) B (distance st) (visited st) →
  m = - distance st →
  Ring.contents (queue st') = A ++ B → distance st' = - m →
  visited st' = visited st → good g s t st'.
Proof.
  intros Hwf Hinv Hm Hc Hd Hv. split; [done|]. exists l, A, B. split; [done|].
  assert (distance st' = distance st) as -> by lia. rewrite Hv.
  pose proof (inv_dist Hinv) as Hdist.
  split.
  - apply Hinv.
  - intros x Hx. apply (inv_front Hinv). by right.
  - apply Hinv.
  - apply Hinv.
  - apply Hinv.
  - apply Hinv.
  - intros v j Hj Hw. destruct (inv_todo Hinv v j Hj Hw) as [Hin|?]; [|by right].
    apply elem_of_cons in Hin as [->|?]; [|by left].
    pose proof (walk_nonneg g s j _ Hadj Hs Hw). lia.
  - apply Hinv.
  - destruct (inv_same Hinv) as [?|[[= Heq _] _]]; [by left|]. lia.
Qed.

Lemma good_level st l B0 st' :
  Ring.wf (queue st') →
  inv g s t l [] ((- distance st - 1) :: B0) (distance st) (visited st) →
  Ring.contents (queue st') = B0 → distance st' = distance st + 1 →
  visited st' = visited st → good g s t st'.
Proof.
  intros Hwf Hinv Hc Hd Hv. split; [done|]. exists (S l), B0, [].
  split; [by rewrite app_nil_r|]. rewrite Hd, Hv.
  pose proof (inv_dist Hinv) as Hdist.
  assert (∀ v j, (j ≤ l)%nat → walk g s j v → finished g t (visited st) v) as Hfin.
  { intros v j Hj Hw. destruct (inv_todo Hinv v j Hj Hw) as [Hin|?]; [|done].
    by apply elem_of_nil in Hin. }
  assert (∀ v, walk g s (S l) v → visited st v = true) as Hnew.
  { intros v (u & Hu & Hv')%walk_pred. by apply (Hfin u l). }
  assert (∀ v, visited st v = true → v ∈ B0 ∨ finished g t (visited st) v) as Hseen.
  { intros v Hvis.
    destruct (inv_seen Hinv v Hvis) as [->|(k & Hk & Hh)].
    - right. apply (Hfin s 0%nat); [lia|constructor].
    - destruct (decide (k = S l)) as [->|Hne].
      + left. pose proof (inv_next Hinv v Hvis Hh) as Hin.
        apply elem_of_cons in Hin as [->|?]; [|done].
        pose proof (walk_nonneg g s _ _ Hadj Hs (proj1 Hh)). lia.
      + right. apply (Hfin v k); [lia|apply Hh]. }
  split.
  - lia.
  - intros x Hx.
    replace (- (distance st + 1)) with (- distance st - 1) by lia.
    apply (inv_back Hinv). by right.
  - by intros x ?%elem_of_nil.
  - done.
  - intros v Hvis. destruct (inv_seen Hinv v Hvis) as [?|(k & Hk & Hh)];
      [by left|]. right. exists k. split; [lia|done].
  - intros v j Hj Hw. destruct (decide (j = S l)) as [->|Hne].
    + left. by apply Hnew.
    + apply (inv_near Hinv v j); [lia|done].
  - intros v j Hj Hw. destruct (decide (j = S l)) as [->|Hne].
    + by apply Hseen, Hnew.
    + right. apply (Hfin v j); [lia|done].
  - intros v Hvis Hh. exfalso.
    destruct (inv_seen Hinv v Hvis) as [->|(k & Hk & Hh')].
    + pose proof (hops_unique g s s _ _ Hh (hops_zero g s)). lia.
    + pose proof (hops_unique g s v _ _ Hh Hh'). lia.
  - destruct (inv_same Hinv) as [?|[? _]]; [by left|done].
Qed.

Lemma good_city st l c A B st' :
  Ring.wf (queue st') →
  inv g s t l (c :: A) B (distance st) (visited st) →
  0 ≤ c → at_level g s l c → c ≠ t →
  Ring.contents (queue st') =
    (A ++ B) ++ (if 0 <? degree_of g c then [- distance st - 1] else [])
            ++ fresh (visited st) (adj g c) →
  distance st' = distance st →
  visited st' = mark (visited st) (adj g c) → good g s t st'.
Proof.
  intros Hwf Hinv Hc0 Hlev Hct Hc Hd Hv. split; [done|].
  set (M := if 0 <? degree_of g c then [- distance st - 1] else []) in *.
  set (F := fresh (visited st) (adj g c)) in *.
  exists l, A, (B ++ M ++ F). split; [by rewrite Hc, <- app_assoc|].
  rewrite Hd, Hv.
  assert (∀ n, visited st n = true → mark (visited st) (adj g c) n = true) as Hmono
    by (intros n; apply mark_mono).
  assert (∀ x, x ∈ M → x = - distance st - 1) as HM.
  { intros x. unfold M. destruct (0 <? degree_of g c).
    - by intros ->%list_elem_of_singleton.
    - by intros ?%elem_of_nil. }
  assert (∀ x, x ∈ F → 0 ≤ x ∧ at_level g s (S l) x) as HF.
  { intros x [Hin Hvis]%fresh_elem. by eapply fresh_level. }
  split.
  - apply Hinv.
  - intros x Hx. apply (inv_front Hinv). by right.
  - intros x [Hx|[Hx|Hx]%elem_of_app]%elem_of_app.
    + by apply (inv_back Hinv).
    + left. by apply HM.
    + right. by apply HF.
  - intros x B0 HB. destruct B as [|b B1].
    + unfold M in HB. destruct (Z.ltb_spec 0 (degree_of g c)) as [Hdeg|Hdeg].
      * by injection HB as <- _.
      * unfold F, adj in HB. by rewrite seqZ_nil in HB by lia.
    + injection HB as <- _. by eapply (inv_lead Hinv).
  - intros v [Hvis|[Hin Hvis]]%mark_true.
    + by apply (inv_seen Hinv).
    + destruct (fresh_level _ _ _ _ _ c v Hinv Hlev Hin Hvis) as [_ [Hh| ->]];
        [|by left]. right. exists (S l). split; [lia|done].
  - intros v j Hj Hw.
    destruct (inv_near Hinv v j Hj Hw); [left; by apply Hmono|by right].
  - intros v j Hj Hw.
    destruct (inv_todo Hinv v j Hj Hw) as [[->|?]%elem_of_cons|Hfin].
    + right. split; [done|]. intros n Hn. by apply mark_elem.
    + by left.
    + right. by eapply finished_mono.
  - intros v [Hvis|[Hin Hvis]]%mark_true Hh.
    + apply elem_of_app. left. by apply (inv_next Hinv).
    + rewrite !elem_of_app. right; right. by apply fresh_elem.
  - left. destruct (inv_same Hinv) as [?|[[= -> _] _]]; done.
Qed.

(** One round of the loop from a good state. *)
Lemma good_step st :
  good g s t st → Ring.contents (queue st) ≠ [] →
  match loop_body g t st with
  | Next st' => good g s t st'
  | Done r => shortest g s t r
  | Fatal => False
  end.
Proof.
  intros (Hwf & l & A & B & Hc & Hinv) Hne.
  pose proof (inv_dist Hinv) as Hdist.
  destruct A as [|x A].
  - destruct B as [|b B0]; [by rewrite Hc in Hne|].
    pose proof (inv_lead Hinv b B0 eq_refl) as ->.
    destruct (loop_body_marker g t st _ _ Hwf Hc) as (st' & -> & Hwf' & Hc' & Hd' & Hv');
      [lia|].
    eapply good_level; eauto. lia.
  - destruct (inv_front Hinv x) as [->|[Hx Hlev]]; [by left| |].
    + destruct (loop_body_marker g t st _ _ Hwf Hc) as (st' & -> & Hwf' & Hc' & Hd' & Hv');
        [lia|].
      eapply good_marker; eauto.
    + destruct (decide (x = t)) as [->|Hxt].
      * rewrite (loop_body_found g t st _ Hwf Hc Hx).
        right. exists l. split; [lia|].
        destruct Hlev as [?| ->]; [done|].
        destruct (inv_same Hinv) as [?|[_ ->]]; [done|apply hops_zero].
      * destruct (loop_body_city g t st x _ Hwf Hc Hx Hxt)
          as (st' & -> & Hwf' & Hc' & Hd' & Hv').
        eapply good_city; eauto.
Qed.

(** When the queue of a good state is empty, no walk leads to [t]. *)
Lemma good_empty st :
  good g s t st → Ring.contents (queue st) = [] → ∀ k, ¬ walk g s k t.
Proof.
  intros (Hwf & l & A & B & Hc & Hinv) Hnil.
  rewrite Hnil in Hc. symmetry in Hc. apply app_eq_nil in Hc as [-> ->].
  assert (∀ v j, (j ≤ l)%nat → walk g s j v → finished g t (visited st) v) as Hfin.
  { intros v j Hj Hw. destruct (inv_todo Hinv v j Hj Hw) as [Hin|?]; [|done].
    by apply elem_of_nil in Hin. }
  assert (∀ v, visited st v = true ∨ v = s → finished g t (visited st) v) as Hall.
  { intros v [Hvis| ->].
    - destruct (inv_seen Hinv v Hvis) as [->|(k & Hk & Hh)].
      + apply (Hfin s 0%nat); [lia|constructor].
      + destruct (decide (k = S l)) as [->|Hk'].
        * pose proof (inv_next Hinv v Hvis Hh) as Hin.
          by apply elem_of_nil in Hin.
        * apply (Hfin v k); [lia|apply Hh].
    - apply (Hfin s 0%nat); [lia|constructor]. }
  assert (∀ k v, walk g s k v → finished g t (visited st) v) as Hclosed.
  { intros k v Hw. induction Hw as [|k u v Hw IH Hv].
    - apply Hall. by right.
    - apply Hall. left. by apply IH. }
  intros k Hw. by destruct (Hclosed k t Hw).
Qed.

Lemma solve_loop_sound fuel : ∀ st,
  good g s t st →
  match solve_loop g fuel t st with
  | Returned r => shortest g s t r
  | Sigsegv => False
  | OutOfFuel => True
  end.
Proof.
  induction fuel as [|fuel IH]; intros st Hgood; [done|].
  cbn [solve_loop].
  destruct (0 <? Ring.size (queue st))%nat eqn:Hsz.
  - apply loop_entered in Hsz. pose proof (good_step st Hgood Hsz) as Hstep.
    destruct (loop_body g t st) as [st'|r|]; [by apply IH|done|done].
  - left. split; [done|]. apply (good_empty st Hgood).
    destruct (Ring.contents (queue st)) eqn:Hc; [done|].
    assert ((0 <? Ring.size (queue st))%nat = true); [|congruence].
    apply loop_entered. by rewrite Hc.
Qed.
End Correctness.

(** * The loop ends within its budget *)

Section Termination.
Context `{GraphRep G} (g : G).
Hypothesis Hrange : in_range g.

Lemma in_range_cities_only : cities_only g.
Proof. intros c n Hn. by destruct (Hrange c n Hn). Qed.

Lemma unflagged_insert_out V n l :
  n ∉ l → unflagged (<[n := true]> V) l = unflagged V l.
Proof.
  unfold unflagged. induction l as [|x l IH]; intros Hn; [done|].
  apply not_elem_of_cons in Hn as [Hne Hn]. simpl.
  rewrite fn_lookup_insert_ne by done.
  destruct (V x); simpl; by rewrite IH.
Qed.

Lemma unflagged_insert V n l :
  NoDup l → n ∈ l → V n = false →
  (unflagged (<[n := true]> V) l + 1 = unflagged V l)%nat.
Proof.
  induction 1 as [|x l Hx Hnd IH]; intros Hin Hv; [by apply elem_of_nil in Hin|].
  unfold unflagged in *. simpl.
  destruct (decide (n = x)) as [->|Hne].
  - rewrite fn_lookup_insert, Hv. simpl.
    pose proof (unflagged_insert_out V x l Hx) as Hout. unfold unflagged in Hout. lia.
  - rewrite fn_lookup_insert_ne by done.
    apply elem_of_cons in Hin as [?|Hin]; [done|].
    specialize (IH Hin Hv). destruct (V x); simpl; lia.
Qed.

Lemma weight_app q1 q2 : weight (q1 ++ q2) = (weight q1 + weight q2)%nat.
Proof. apply sum_list_with_app. Qed.

Lemma scan_weight ns : ∀ V,
  (∀ n, n ∈ ns → 0 ≤ n < Z.of_nat (node_count g)) →
  (2 * unflagged (mark V ns) (seqZ 0 (Z.of_nat (node_count g)))
   + weight (fresh V ns)
   = 2 * unflagged V (seqZ 0 (Z.of_nat (node_count g))))%nat.
Proof.
  induction ns as [|n ns IH]; intros V Hns.
  - simpl. lia.
  - rewrite mark_cons. cbn [fresh].
    assert (∀ n, n ∈ ns → 0 ≤ n < Z.of_nat (node_count g)) as Hns'.
    { intros k Hk. apply Hns. by right. }
    destruct (V n) eqn:Hv; [by apply IH|].
    destruct (Hns n) as [Hn0 Hn1]; [by left|].
    change (weight (n :: fresh (<[n:=true]> V) ns))
      with ((if (n <? 0)%Z then 1 else 2) + weight (fresh (<[n:=true]> V) ns))%nat.
    destruct (Z.ltb_spec n 0); [lia|].
    pose proof (IH (<[n:=true]> V) Hns').
    pose proof (unflagged_insert V n (seqZ 0 (Z.of_nat (node_count g)))
                  (NoDup_seqZ _ _)) as Hins.
    rewrite elem_of_seqZ in Hins. specialize (Hins ltac:(lia) Hv). lia.
Qed.

(** A round that goes on leaves a well-formed queue and strictly fewer
    rounds to make. *)
Lemma round_decreases until st st' :
  Ring.wf (queue st) → 0 ≤ distance st → Ring.contents (queue st) ≠ [] →
  loop_body g until st = Next st' →
  (rounds_left g st' < rounds_left g st)%nat.
Proof.
  intros Hwf Hd Hne Hbody. unfold rounds_left.
  destruct (Ring.contents (queue st)) as [|x rest] eqn:Hc; [done|].
  change (weight (x :: rest)) with ((if (x <? 0)%Z then 1 else 2) + weight rest)%nat.
  destruct (Z.ltb_spec x 0) as [Hx|Hx].
  - destruct (loop_body_marker g until st x rest Hwf Hc Hx)
      as (st1 & Hb & Hwf1 & Hc1 & _ & Hv1).
    rewrite Hb in Hbody. injection Hbody as <-. rewrite Hc1, Hv1. lia.
  - destruct (decide (x = until)) as [->|Hxu].
    + by rewrite (loop_body_found g until st rest Hwf Hc Hx) in Hbody.
    + destruct (loop_body_city g until st x rest Hwf Hc Hx Hxu)
        as (st1 & Hb & Hwf1 & Hc1 & _ & Hv1).
      rewrite Hb in Hbody. injection Hbody as <-. rewrite Hc1, Hv1.
      rewrite !weight_app.
      pose proof (scan_weight (adj g x) (visited st) (Hrange x)).
      assert (weight (if (0 <? degree_of g x)%Z then [(- distance st - 1)%Z] else []) ≤ 1)%nat
        as Hmark.
      { destruct (0 <? degree_of g x); [|simpl; lia].
        change (weight [- distance st - 1])
          with ((if (- distance st - 1 <? 0)%Z then 1 else 2) + 0)%nat.
        destruct (Z.ltb_spec (- distance st - 1) 0); lia. }
      lia.
Qed.

(** From a good state the loop needs no more rounds than [rounds_left]
    counts, and one more look at the queue. *)
Lemma solve_loop_terminates s t fuel : ∀ st,
  0 ≤ s → good g s t st → (rounds_left g st < fuel)%nat →
  solve_loop g fuel t st ≠ OutOfFuel.
Proof.
  induction fuel as [|fuel IH]; intros st Hs Hgood Hfuel; [lia|].
  cbn [solve_loop].
  destruct (0 <? Ring.size (queue st))%nat eqn:Hsz; [|done].
  apply loop_entered in Hsz.
  pose proof (good_step g s t Hs in_range_cities_only st Hgood Hsz) as Hstep.
  destruct (loop_body g t st) as [st'|r|] eqn:Hbody; [|done|done].
  apply IH; [done|done|].
  destruct Hgood as (Hwf & l & A & B & _ & Hinv).
  pose proof (inv_dist Hinv).
  pose proof (round_decreases t st st' Hwf ltac:(lia) Hsz Hbody). lia.
Qed.

Lemma rounds_left_init from st :
  solve_init from = Some st → (rounds_left g st < solve_budget g)%nat.
Proof.
  unfold solve_init.
  destruct (Ring.make_circular_buffer DEFAULT_CAPACITY) as [q|] eqn:Hq; [|done].
  intros [= <-]. apply make_circular_buffer_wf in Hq as [Hwf Hc].
  destruct (enqueue_spec q from Hwf) as [Hwf' Hc']. rewrite Hc in Hc'.
  unfold rounds_left, solve_budget. cbn [queue visited]. rewrite Hc'.
  change (weight ([] ++ [from])) with ((if (from <? 0)%Z then 1 else 2) + 0)%nat.
  assert (unflagged (λ _, false) (seqZ 0 (Z.of_nat (node_count g))) = node_count g) as ->.
  { unfold unflagged. rewrite <- (Nat2Z.id (node_count g)) at 2.
    rewrite <- length_seqZ with (m := 0).
    induction (seqZ 0 (Z.of_nat (node_count g))) as [|x l IH]; simpl; by f_equal. }
  destruct (from <? 0); lia.
Qed.
End Termination.

(** * [solve] returns the least number of hops *)

Section SolveFacts.
Context `{GraphRep G} (g : G).

Lemma solve_init_some from :
  ∃ st, solve_init from = Some st ∧ Ring.wf (queue st) ∧
        Ring.contents (queue st) = [from] ∧ distance st = 1 ∧
        visited st = λ _, false.
Proof.
  unfold solve_init.
  destruct (Ring.make_circular_buffer DEFAULT_CAPACITY) as [q|] eqn:Hq; [|done].
  apply make_circular_buffer_wf in Hq as [Hwf Hc].
  destruct (enqueue_spec q from Hwf) as [Hwf' Hc']. rewrite Hc in Hc'.
  eexists. split; [done|]. by cbn [queue distance visited].
Qed.

(** More fuel never changes what the loop returns. *)
Lemma solve_loop_more_fuel until fuel : ∀ st fuel' r,
  (fuel ≤ fuel')%nat → solve_loop g fuel until st = Returned r →
  solve_loop g fuel' until st = Returned r.
Proof.
  induction fuel as [|fuel IH]; intros st fuel' r Hle; [done|].
  destruct fuel' as [|fuel']; [lia|]. cbn [solve_loop].
  destruct (0 <? Ring.size (queue st))%nat; [|done].
  destruct (loop_body g until st); [|done|done].
  apply IH. lia.
Qed.

(** On a graph whose neighbour entries are nodes, [solve] returns, and it
    returns the least number of hops, or [IMPOSSIBLE] when there is no
    walk. *)
Lemma solve_shortest from until :
  in_range g → 0 ≤ from →
  ∃ r, solve g from until = Returned r ∧ shortest g from until r.
Proof.
  intros Hrange Hfrom. unfold solve, solve_fuel.
  destruct (solve_init from) as [st|] eqn:Hinit;
    [|by destruct (solve_init_some from) as (? & ? & _); congruence].
  pose proof (in_range_cities_only g Hrange) as Hadj.
  pose proof (good_init g from until Hfrom st Hinit) as Hgood.
  pose proof (solve_loop_sound g from until Hfrom Hadj (solve_budget g) st Hgood) as Hsound.
  pose proof (solve_loop_terminates g Hrange from until (solve_budget g) st Hfrom Hgood
                (rounds_left_init g from st Hinit)) as Hterm.
  destruct (solve_loop g (solve_budget g) until st) as [r| |]; [eauto|done|done].
Qed.

Lemma walk_front a v k b : v ∈ adj g a → walk g v k b → walk g a (S k) b.
Proof.
  intros Hv Hw. induction Hw as [|k u w Hw IH Hin].
  - econstructor; [constructor|done].
  - econstructor; [exact IH|done].
Qed.

Lemma walk_rev a k b : undirected g → walk g a k b → walk g b k a.
Proof.
  intros Hsym Hw. induction Hw as [|k u v Hw IH Hin]; [constructor|].
  eapply walk_front; [by apply Hsym|done].
Qed.

Lemma shortest_sym a b r : undirected g → shortest g a b r → shortest g b a r.
Proof.
  intros Hsym [[-> Hno]|(k & -> & Hw & Hmin)].
  - left. split; [done|]. intros k Hw. by apply (Hno k), walk_rev.
  - right. exists k. split; [done|]. split; [by apply walk_rev|].
    intros j Hj Hw'. by apply (Hmin j Hj), walk_rev.
Qed.
End SolveFacts.

(** * The two passes of [src/main.c] *)

Section Ends.
Lemma ends_app L1 L2 c : ends (L1 ++ L2) c = ends L1 c ++ ends L2 c.
Proof.
  induction L1 as [|l L1 IH]; [done|]. simpl. by rewrite IH, !app_assoc.
Qed.

Lemma ends_snoc L a b c :
  ends (L ++ [(a, b)]) c =
  ends L c ++ (if decide (a = c) then [b] else []) ++ (if decide (b = c) then [a] else []).
Proof. rewrite ends_app. simpl. by rewrite app_nil_r. Qed.

Lemma elem_of_ends L u v :
  v ∈ ends L u ↔ ∃ l, l ∈ L ∧ ((l.1 = u ∧ l.2 = v) ∨ (l.2 = u ∧ l.1 = v)).
Proof.
  induction L as [|l L IH]; simpl.
  - split; [by intros ?%elem_of_nil|by intros (? & ?%elem_of_nil & _)].
  - rewrite !elem_of_app, IH. split.
    + intros [Hin|[Hin|(l' & Hl' & Hor)]].
      * destruct (decide (l.1 = u)); [|by apply elem_of_nil in Hin].
        apply list_elem_of_singleton in Hin. exists l. split; [by left|auto].
      * destruct (decide (l.2 = u)); [|by apply elem_of_nil in Hin].
        apply list_elem_of_singleton in Hin. exists l. split; [by left|auto].
      * exists l'. split; [by right|done].
    + intros (l' & [->|Hin]%elem_of_cons & Hor).
      * destruct Hor as [[Hu Hv]|[Hu Hv]].
        -- left. rewrite decide_True by done. by apply list_elem_of_singleton.
        -- right; left. rewrite decide_True by done. by apply list_elem_of_singleton.
      * right; right. eauto.
Qed.

Lemma ends_sym L u v : v ∈ ends L u → u ∈ ends L v.
Proof. rewrite !elem_of_ends. intros (l & ? & ?). exists l. naive_solver. Qed.
End Ends.

Section FlatBuild.
Import Flat.

Lemma tally_airport_edge g city :
  tally_airport g city = tally_edge g {| from := 0; to := city |}.
Proof. done. Qed.

Lemma place_airport_edge g airport :
  place_airport g airport = place_edge g {| from := 0; to := airport |}.
Proof. done. Qed.

Lemma fold_tally_airport airports : ∀ g,
  fold_left tally_airport airports g = fold_left tally_edge (Edge 0 <$> airports) g.
Proof. induction airports as [|a l IH]; intros g; [done|]. simpl. by rewrite IH. Qed.

Lemma fold_place_airport airports : ∀ g,
  fold_left place_airport airports g = fold_left place_edge (Edge 0 <$> airports) g.
Proof. induction airports as [|a l IH]; intros g; [done|]. simpl. by rewrite IH. Qed.

(** *** First pass: the degrees *)

Lemma tally_edge_spec g e :
  size (tally_edge g e) = size g ∧ start (tally_edge g e) = start g ∧
  neighbours (tally_edge g e) = neighbours g ∧
  ∀ c, degrees (tally_edge g e) c =
       degrees g c + Z.of_nat (length (ends [link_of e] c)).
Proof.
  split_and!; [done..|]. intros c. destruct e as [a b].
  unfold tally_edge, set_degree; cbn [degrees from to ends link_of fst snd].
  rewrite app_nil_r.
  destruct (decide (b = c)) as [->|Hb], (decide (a = c)) as [->|Ha];
    rewrite ?fn_lookup_insert, ?fn_lookup_insert_ne, ?fn_lookup_insert by done;
    simpl; lia.
Qed.

Lemma tally_all es : ∀ g,
  let g' := fold_left tally_edge es g in
  size g' = size g ∧ start g' = start g ∧ neighbours g' = neighbours g ∧
  ∀ c, degrees g' c = degrees g c + Z.of_nat (length (ends (link_of <$> es) c)).
Proof.
  induction es as [|e es IH]; intros g.
  - simpl. split_and!; [done..|]. intros c. lia.
  - cbn zeta. cbn [fold_left]. rewrite fmap_cons.
    destruct (IH (tally_edge g e)) as (-> & -> & -> & Hd).
    destruct (tally_edge_spec g e) as (-> & -> & -> & Hd1).
    split_and!; [done..|]. intros c. rewrite Hd, Hd1.
    change (link_of e :: (link_of <$> es)) with ([link_of e] ++ (link_of <$> es)).
    rewrite (ends_app [link_of e]), length_app. lia.
Qed.

(** *** The prefix sums *)

Lemma offsets_spec (k : nat) g :
  let r := fold_left offset_step (seqZ 0 (Z.of_nat k)) (g, 0) in
  r.2 = prefix (degrees g) k ∧ size r.1 = size g ∧ neighbours r.1 = neighbours g ∧
  (∀ i, start r.1 i = if decide (0 ≤ i < Z.of_nat k)
                      then prefix (degrees g) (Z.to_nat i) else start g i) ∧
  (∀ i, degrees r.1 i = if decide (0 ≤ i < Z.of_nat k) then 0 else degrees g i).
Proof.
  induction k as [|k IH].
  - simpl. split_and!; [done..| |]; intros i; by rewrite decide_False by lia.
  - cbn zeta. rewrite seqZ_S, fold_left_app. cbn [fold_left].
    destruct (fold_left offset_step (seqZ 0 (Z.of_nat k)) (g, 0)) as [g1 s1].
    cbn [fst snd] in IH. destruct IH as (-> & Hsz & Hnb & Hst & Hdg).
    unfold offset_step, set_start, set_degree; cbn [fst snd size start degrees neighbours].
    rewrite Z.add_0_l, Hdg, decide_False by lia.
    split_and!; [done..| |]; intros i.
    + destruct (decide (Z.of_nat k = i)) as [<-|Hne].
      * rewrite fn_lookup_insert, decide_True by lia. by rewrite Nat2Z.id.
      * rewrite fn_lookup_insert_ne, Hst by done.
        destruct (decide (0 ≤ i < Z.of_nat k)).
        -- by rewrite decide_True by lia.
        -- by rewrite decide_False by lia.
    + destruct (decide (Z.of_nat k = i)) as [<-|Hne].
      * rewrite fn_lookup_insert. by rewrite decide_True by lia.
      * rewrite fn_lookup_insert_ne, Hdg by done.
        destruct (decide (0 ≤ i < Z.of_nat k)).
        -- by rewrite decide_True by lia.
        -- by rewrite decide_False by lia.
Qed.

Lemma prefix_ext D D' k : (∀ c, D c = D' c) → prefix D k = prefix D' k.
Proof. intros HD. induction k as [|k IH]; [done|]. simpl. by rewrite IH, HD. Qed.

Lemma prefix_mono D i j :
  (∀ c, 0 ≤ D c) → (i ≤ j)%nat → prefix D i ≤ prefix D j.
Proof.
  intros HD. induction 1 as [|j Hle IH]; [done|]. simpl.
  specialize (HD (Z.of_nat j)). lia.
Qed.

(** Slices that start at the prefix sums do not overlap. *)
Lemma prefix_disjoint D c c' i j :
  (∀ c, 0 ≤ D c) → 0 ≤ c → 0 ≤ c' → c ≠ c' →
  0 ≤ i < D c → 0 ≤ j < D c' →
  prefix D (Z.to_nat c) + i ≠ prefix D (Z.to_nat c') + j.
Proof.
  intros HD Hc Hc' Hne Hi Hj.
  assert (∀ a b, 0 ≤ a → a < b → prefix D (Z.to_nat a) + D a ≤ prefix D (Z.to_nat b)) as Hstep.
  { intros a b Ha Hab.
    trans (prefix D (S (Z.to_nat a))); [simpl; by rewrite Z2Nat.id|].
    apply prefix_mono; [done|lia]. }
  destruct (Z.lt_trichotomy c c') as [Hlt|[?|Hlt]]; [|done|].
  - specialize (Hstep c c' Hc Hlt). lia.
  - specialize (Hstep c' c Hc' Hlt). lia.
Qed.
End FlatBuild.

Section FlatPlace.
Import Flat.
Variables (S0 D : Z → Z).
Hypothesis Hdisj : ∀ c c' i j, c ≠ c' → 0 ≤ i < D c → 0 ≤ j < D c' →
                               S0 c + i ≠ S0 c' + j.

Lemma place_edge_placed g L a b :
  placed S0 g L → a ≠ b →
  (∀ c, Z.of_nat (length (ends (L ++ [(a, b)]) c)) ≤ D c) →
  placed S0 (place_edge g {| from := a; to := b |}) (L ++ [(a, b)]).
Proof.
  intros (Hst & Hdg & Hnb) Hab Hcap.
  assert (∀ c, Z.of_nat (length (ends L c)) ≤ D c) as Hle.
  { intros c. specialize (Hcap c). rewrite ends_snoc, !length_app in Hcap. lia. }
  assert (Z.of_nat (length (ends L a)) < D a) as Ha.
  { specialize (Hcap a). rewrite ends_snoc, !length_app in Hcap.
    rewrite decide_True in Hcap by done. simpl in Hcap. lia. }
  assert (Z.of_nat (length (ends L b)) < D b) as Hb.
  { specialize (Hcap b). rewrite ends_snoc, !length_app in Hcap.
    rewrite (decide_True (P := b = b)) in Hcap by done.
    simpl in Hcap. lia. }
  unfold placed, place_edge, set_neighbour, set_degree.
  cbn [size start degrees neighbours from to].
  split_and!; [done| |].
  - intros c. rewrite ends_snoc, !length_app.
    destruct (decide (a = c)) as [->|Hac], (decide (b = c)) as [->|Hbc]; [done|..];
      rewrite ?fn_lookup_insert, ?fn_lookup_insert_ne, ?fn_lookup_insert by done;
      rewrite ?Hdg; simpl; lia.
  - intros c i Hi. rewrite ends_snoc in Hi |- *. rewrite Hst, !Hdg.
    pose proof (Hle c) as Hc.
    rewrite !length_app in Hi.
    destruct (decide (a = c)) as [->|Hac], (decide (b = c)) as [->|Hbc]; [done|..];
      simpl in Hi.
    + (* the slice of [a] *)
      rewrite app_nil_r in *.
      rewrite fn_lookup_insert_ne by (apply Hdisj; [done|lia..]).
      destruct (decide (i = length (ends L c))) as [->|Hne].
      * rewrite fn_lookup_insert.
        by rewrite lookup_total_app_r, Nat.sub_diag by lia.
      * rewrite fn_lookup_insert_ne by lia.
        rewrite lookup_total_app_l by lia. apply Hnb. lia.
    + (* the slice of [b] *)
      simpl.
      destruct (decide (i = length (ends L c))) as [->|Hne].
      * rewrite fn_lookup_insert.
        by rewrite lookup_total_app_r, Nat.sub_diag by lia.
      * rewrite fn_lookup_insert_ne by lia.
        rewrite fn_lookup_insert_ne by (apply Hdisj; [done|lia..]).
        rewrite lookup_total_app_l by lia. apply Hnb. lia.
    + (* any other slice *)
      simpl in *. rewrite app_nil_r in *.
      rewrite !fn_lookup_insert_ne by (apply Hdisj; [done|lia..]).
      apply Hnb. lia.
Qed.

Lemma place_all L2 : ∀ L1 g,
  placed S0 g L1 →
  (∀ l, l ∈ L2 → l.1 ≠ l.2) →
  (∀ c, Z.of_nat (length (ends (L1 ++ L2) c)) ≤ D c) →
  placed S0 (fold_left place_edge ((λ l, {| from := l.1; to := l.2 |}) <$> L2) g)
         (L1 ++ L2).
Proof.
  induction L2 as [|[a b] L2 IH]; intros L1 g Hg Hne Hcap.
  - by rewrite app_nil_r.
  - rewrite fmap_cons. cbn [fold_left fst snd].
    replace (L1 ++ (a, b) :: L2) with ((L1 ++ [(a, b)]) ++ L2) in *
      by (by rewrite <- app_assoc).
    apply IH.
    + apply place_edge_placed; [done|by apply (Hne (a, b)); left|].
      intros c. specialize (Hcap c). rewrite ends_app, length_app in Hcap. lia.
    + intros l Hl. apply Hne. by right.
    + done.
Qed.

Lemma placed_adj g L c : placed S0 g L → adj g c = ends L c.
Proof.
  intros (Hst & Hdg & Hnb). unfold adj. cbn [degree_of neighbour_of rep].
  rewrite Hst, Hdg. apply list_eq. intros i.
  rewrite list_lookup_fmap.
  destruct (decide (i < length (ends L c))%nat) as [Hi|Hi].
  - rewrite lookup_seqZ_lt by lia. cbn [fmap option_fmap option_map]. rewrite Z.add_0_l, Hnb by done.
    symmetry. by apply list_lookup_lookup_total_lt.
  - rewrite lookup_seqZ_ge by lia. simpl.
    symmetry. apply lookup_ge_None. lia.
Qed.
End FlatPlace.

Section FlatAssemble.
Import Flat.

Lemma ends_within lo hi L c v : links_within lo hi L → v ∈ ends L c → lo ≤ v ≤ hi ∧ lo ≤ c ≤ hi.
Proof.
  intros HL (l & Hl & Hor)%elem_of_ends. destruct (HL l Hl).
  destruct Hor as [[<- <-]|[<- <-]]; done.
Qed.

Lemma ends_outside lo hi L c : links_within lo hi L → ¬ lo ≤ c ≤ hi → ends L c = [].
Proof.
  intros HL Hc. destruct (ends L c) as [|v l] eqn:He; [done|].
  destruct (ends_within lo hi L c v HL); [rewrite He; by left|done].
Qed.

Lemma flat_links_within n s t airports routes :
  valid_input n s t airports routes →
  links_within 0 n (flat_links airports routes) ∧
  ∀ l, l ∈ flat_links airports routes → l.1 ≠ l.2.
Proof.
  intros (Hs & Ht & Hn & Ha & Hr & _). unfold flat_links. split.
  - intros l [Hl|(a & -> & Hl)%list_elem_of_fmap]%elem_of_app.
    + destruct (Hr l Hl) as (? & ? & _). lia.
    + specialize (Ha a Hl). simpl. lia.
  - intros l [Hl|(a & -> & Hl)%list_elem_of_fmap]%elem_of_app.
    + by destruct (Hr l Hl) as (_ & _ & ?).
    + specialize (Ha a Hl). simpl. lia.
Qed.

(** The graph [main] of [src/main.c] hands to [solve] lists, for every
    city, its partners in the routes and then in the airport links. *)
Lemma flat_build_adj n s t airports routes c :
  valid_input n s t airports routes →
  adj (build n airports routes) c = ends (flat_links airports routes) c.
Proof.
  intros Hvalid.
  destruct (flat_links_within n s t airports routes Hvalid) as [Hin Hne].
  destruct Hvalid as (Hs & Ht & Hn & Ha & Hr & _).
  unfold build.
  set (g1 := set_size graph (Z.to_nat (n + 1))).
  rewrite fold_tally_airport, fold_place_airport, <- !fold_left_app.
  set (Lt := (Edge 0 <$> airports) ++ edges_of routes).
  destruct (tally_all Lt g1) as (Hsz2 & Hst2 & Hnb2 & Hdg2).
  set (g2 := fold_left tally_edge Lt g1) in *.
  set (D := λ c, Z.of_nat (length (ends (flat_links airports routes) c))).
  assert (∀ c, degrees g2 c = D c) as HD.
  { intros c'. rewrite Hdg2. unfold D, Lt, flat_links, edges_of. simpl.
    rewrite fmap_app, <- !list_fmap_compose, !ends_app, !length_app.
    replace (link_of ∘ (λ r : Z * Z, {| from := r.1; to := r.2 |}) <$> routes)
      with routes.
    2:{ rewrite <- (list_fmap_id routes) at 1. apply list_fmap_ext. by intros ? []. }
    change (link_of ∘ Edge 0) with (λ a : Z, (0, a)). simpl. lia. }
  replace (n + 2) with (Z.of_nat (Z.to_nat (n + 2))) by lia.
  destruct (offsets_spec (Z.to_nat (n + 2)) g2) as (_ & Hsz3 & Hnb3 & Hst3 & Hdg3).
  set (g3 := (fold_left offset_step _ (g2, 0)).1) in *.
  apply (placed_adj (start g3)).
  replace (edges_of routes ++ (Edge 0 <$> airports))
    with ((λ l, {| from := l.1; to := l.2 |}) <$> flat_links airports routes).
  2:{ unfold flat_links, edges_of. rewrite fmap_app, <- list_fmap_compose. done. }
  apply (place_all (start g3) D) with (L1 := []).
  - (* the slices do not overlap *)
    intros c1 c2 i j Hc Hi Hj.
    assert (∀ c', 0 < D c' → 0 ≤ c' ≤ n) as Hpos.
    { intros c' Hc'. destruct (decide (0 ≤ c' ≤ n)) as [|Hout]; [done|].
      unfold D in Hc'. rewrite (ends_outside 0 n) in Hc' by done. simpl in Hc'. lia. }
    pose proof (Hpos c1 ltac:(lia)). pose proof (Hpos c2 ltac:(lia)).
    rewrite !Hst3, !decide_True by lia.
    rewrite (prefix_ext (degrees g2) D) by done.
    rewrite (prefix_ext (degrees g2) D _ HD).
    apply prefix_disjoint; [|lia..]. intros c'. unfold D. lia.
  - (* nothing is placed yet *)
    split_and!; [done| |simpl; lia].
    intros c'. rewrite Hdg3. simpl.
    destruct (decide (0 ≤ c' < Z.of_nat (Z.to_nat (n + 2)))); [done|].
    rewrite HD. unfold D. by rewrite (ends_outside 0 n) by (done || lia).
  - done.
  - intros c'. simpl. unfold D. lia.
Qed.
End FlatAssemble.

(** * The graph of [src/unnamed/part_000] *)

Section FlatSize.
Import Flat.

Lemma place_edge_size es : ∀ g, size (fold_left place_edge es g) = size g.
Proof. induction es as [|e es IH]; intros g; [done|]. simpl. by rewrite IH. Qed.

Lemma offsets_size idx : ∀ gs, size (fold_left offset_step idx gs).1 = size gs.1.
Proof. induction idx as [|i idx IH]; intros gs; [done|]. simpl. by rewrite IH. Qed.

Lemma flat_build_size n airports routes :
  size (build n airports routes) = Z.to_nat (n + 1).
Proof.
  unfold build. rewrite fold_place_airport, !place_edge_size, offsets_size.
  cbn [fst]. rewrite fold_tally_airport.
  destruct (tally_all (edges_of routes)
              (fold_left tally_edge (Edge 0 <$> airports)
                 (set_size graph (Z.to_nat (n + 1))))) as (-> & _).
  by destruct (tally_all (Edge 0 <$> airports)
                 (set_size graph (Z.to_nat (n + 1)))) as (-> & _).
Qed.
End FlatSize.

Section DynBuild.
Import Dyn.

Lemma init_node_degree idx : ∀ g,
  (∀ c, degree g c = 0) →
  size (fold_left init_node idx g) = size g ∧
  ∀ c, degree (fold_left init_node idx g) c = 0.
Proof.
  induction idx as [|i idx IH]; intros g Hg; [done|]. simpl.
  destruct (IH (init_node g i)) as [-> Hd]; [|done].
  intros c. unfold init_node; cbn [degree].
  destruct (decide (i = c)) as [->|?];
    [by rewrite fn_lookup_insert|by rewrite fn_lookup_insert_ne].
Qed.

Lemma make_graph_holds sz : size (make_graph sz) = sz ∧ holds (make_graph sz) [].
Proof.
  unfold make_graph.
  destruct (init_node_degree (seqZ 0 (Z.of_nat sz))
              {| size := sz; capacity := λ _, 0; degree := λ _, 0;
                 neighbours := λ _ _, 0 |}) as [Hsz Hd]; [done|].
  split; [done|]. split; [done|]. simpl. lia.
Qed.

Lemma ensure_capacity_same g city :
  size (graph_ensure_capacity g city) = size g ∧
  degree (graph_ensure_capacity g city) = degree g ∧
  neighbours (graph_ensure_capacity g city) = neighbours g.
Proof. unfold graph_ensure_capacity. by destruct (capacity g city =? degree g city). Qed.

Lemma add_railway_holds g L a b :
  holds g L → a ≠ b →
  size (graph_add_railway g a b) = size g ∧
  holds (graph_add_railway g a b) (L ++ [(a, b)]).
Proof.
  intros [Hdg Hnb] Hab. unfold graph_add_railway.
  set (g2 := graph_ensure_capacity (graph_ensure_capacity g a) b).
  assert (size g2 = size g ∧ degree g2 = degree g ∧ neighbours g2 = neighbours g)
    as (Hs2 & Hd2 & Hn2).
  { unfold g2.
    destruct (ensure_capacity_same (graph_ensure_capacity g a) b) as (-> & -> & ->).
    apply ensure_capacity_same. }
  unfold holds, set_neighbour, set_degree. cbn [size degree neighbours].
  rewrite Hd2, Hn2. split; [done|]. split.
  - intros c. rewrite ends_snoc, !length_app.
    destruct (decide (a = c)) as [->|Hac], (decide (b = c)) as [->|Hbc]; [done|..];
      rewrite ?fn_lookup_insert, ?fn_lookup_insert_ne, ?fn_lookup_insert by done;
      rewrite ?Hdg; simpl; lia.
  - intros c i Hi. rewrite ends_snoc in Hi |- *. rewrite !length_app in Hi.
    destruct (decide (a = c)) as [->|Hac], (decide (b = c)) as [->|Hbc]; [done|..];
      simpl in Hi; rewrite ?app_nil_r; rewrite ?app_nil_l.
    + rewrite (fn_lookup_insert_ne _ b c) by done. rewrite fn_lookup_insert.
      destruct (decide (i = length (ends L c))) as [->|Hne].
      * rewrite Hdg, fn_lookup_insert.
        by rewrite lookup_total_app_r, Nat.sub_diag by lia.
      * rewrite fn_lookup_insert_ne by (rewrite Hdg; lia).
        rewrite lookup_total_app_l by lia. apply Hnb. lia.
    + rewrite fn_lookup_insert.
      destruct (decide (i = length (ends L c))) as [->|Hne].
      * rewrite Hdg, fn_lookup_insert.
        by rewrite lookup_total_app_r, Nat.sub_diag by lia.
      * rewrite fn_lookup_insert_ne by (rewrite Hdg; lia).
        rewrite fn_lookup_insert_ne by done.
        rewrite lookup_total_app_l by lia. apply Hnb. lia.
    + rewrite !fn_lookup_insert_ne by done. apply Hnb. lia.
Qed.

Lemma add_all {X} (step : graph_t → X → graph_t) (f : X → Z * Z) sz L2 :
  (∀ g x, size g = sz → step g x = graph_add_railway g (f x).1 (f x).2) →
  (∀ x, x ∈ L2 → (f x).1 ≠ (f x).2) →
  ∀ L1 g, size g = sz → holds g L1 →
  size (fold_left step L2 g) = sz ∧ holds (fold_left step L2 g) (L1 ++ (f <$> L2)).
Proof.
  intros Hstep. induction L2 as [|x L2 IH]; intros Hne L1 g Hsz Hg.
  - simpl. by rewrite app_nil_r.
  - cbn [fold_left]. rewrite fmap_cons, Hstep by done.
    destruct (add_railway_holds g L1 (f x).1 (f x).2 Hg) as [Hsz' Hh];
      [apply Hne; by left|].
    replace (L1 ++ f x :: (f <$> L2)) with ((L1 ++ [((f x).1, (f x).2)]) ++ (f <$> L2)).
    + apply IH; [|congruence|done]. intros x' Hx'. apply Hne. by right.
    + rewrite <- app_assoc. by destruct (f x).
Qed.

Lemma holds_adj g L c : holds g L → adj g c = ends L c.
Proof.
  intros (Hdg & Hnb). unfold adj. cbn [degree_of neighbour_of rep].
  rewrite Hdg. apply list_eq. intros i. rewrite list_lookup_fmap.
  destruct (decide (i < length (ends L c))%nat) as [Hi|Hi].
  - rewrite lookup_seqZ_lt by lia. cbn [fmap option_fmap option_map].
    rewrite Z.add_0_l, Hnb by done.
    symmetry. by apply list_lookup_lookup_total_lt.
  - rewrite lookup_seqZ_ge by lia. simpl.
    symmetry. apply lookup_ge_None. lia.
Qed.

(** The graph [main] of [src/unnamed/part_000] hands to [solve] has
    [n + 1] nodes and lists, for every city, its partners in the airport
    links and then in the routes. *)
Lemma dyn_build_adj n s t airports routes :
  valid_input n s t airports routes →
  size (build n airports routes) = Z.to_nat (n + 1) ∧
  ∀ c, adj (build n airports routes) c = ends (dyn_links n airports routes) c.
Proof.
  intros (Hs & Ht & Hn & Ha & Hr & _). unfold build.
  destruct (make_graph_holds (Z.to_nat (n + 1))) as [Hsz0 Hh0].
  set (g0 := make_graph (Z.to_nat (n + 1))) in *.
  destruct (add_all (λ g tmp, graph_add_airport g (tmp - 1)) (λ a, (a - 1, n))
              (Z.to_nat (n + 1)) airports) with (L1 := @nil (Z * Z)) (g := g0)
    as [Hsz1 Hh1]; [| |done|done|].
  { intros g x Hsz. unfold graph_add_airport. cbn [fst snd]. f_equal. lia. }
  { intros a Ha'. specialize (Ha a Ha'). simpl. lia. }
  set (g1 := fold_left _ airports g0) in *.
  destruct (add_all (λ g r, graph_add_railway g (r.1 - 1) (r.2 - 1))
              (λ r : Z * Z, (r.1 - 1, r.2 - 1))
              (Z.to_nat (n + 1)) routes) with (L1 := [] ++ ((λ a, (a - 1, n)) <$> airports))
                                             (g := g1)
    as [Hsz2 Hh2]; [done| |done|done|].
  { intros r Hr'. destruct (Hr r Hr') as (_ & _ & ?). simpl. lia. }
  split; [done|]. intros c. by apply holds_adj.
Qed.
End DynBuild.

(** * The two programs on the same input *)

Section Transfer.
Context `{GraphRep G1} `{GraphRep G2} (g1 : G1) (g2 : G2).
Variables (f : Z → Z) (P : Z → Prop).
Hypothesis Hedge : ∀ u v, P u → v ∈ adj g1 u → P v ∧ f v ∈ adj g2 (f u).

Lemma walk_transfer a k b : P a → walk g1 a k b → P b ∧ walk g2 (f a) k (f b).
Proof.
  intros Ha Hw. induction Hw as [|k u v Hw [Hu IH] Hv].
  - split; [done|constructor].
  - destruct (Hedge u v Hu Hv) as [Hpv Hfv]. split; [done|]. by econstructor.
Qed.
End Transfer.

Section Renumbering.
Variables (n s t : Z) (airports : list Z) (routes : list (Z * Z)).
Hypothesis Hvalid : valid_input n s t airports routes.

Lemma flat_to_dyn_edge u v :
  0 ≤ u ≤ n → v ∈ ends (flat_links airports routes) u →
  0 ≤ v ≤ n ∧ to_dyn n v ∈ ends (dyn_links n airports routes) (to_dyn n u).
Proof.
  destruct Hvalid as (Hs & Ht & Hn & Ha & Hr & _).
  intros Hu (l & Hl & Hor)%elem_of_ends. rewrite elem_of_ends.
  unfold flat_links, dyn_links in *. setoid_rewrite elem_of_app.
  apply elem_of_app in Hl as [Hl|(a & -> & Hl)%list_elem_of_fmap].
  - destruct (Hr l Hl) as (? & ? & ?).
    assert (to_dyn n l.1 = l.1 - 1 ∧ to_dyn n l.2 = l.2 - 1) as [E1 E2].
    { unfold to_dyn. by rewrite !decide_False by lia. }
    split; [destruct Hor as [[<- <-]|[<- <-]]; lia|].
    exists (l.1 - 1, l.2 - 1). split.
    + right. apply list_elem_of_fmap. by exists l.
    + destruct Hor as [[<- <-]|[<- <-]]; rewrite E1, E2; simpl; auto.
  - specialize (Ha a Hl). simpl in Hor.
    assert (to_dyn n 0 = n ∧ to_dyn n a = a - 1) as [E1 E2].
    { unfold to_dyn. rewrite decide_True by done. by rewrite decide_False by lia. }
    split; [destruct Hor as [[<- <-]|[<- <-]]; lia|].
    exists (a - 1, n). split.
    + left. apply list_elem_of_fmap. by exists a.
    + destruct Hor as [[<- <-]|[<- <-]]; rewrite E1, E2; simpl; auto.
Qed.

Lemma dyn_to_flat_edge u v :
  0 ≤ u ≤ n → v ∈ ends (dyn_links n airports routes) u →
  0 ≤ v ≤ n ∧ to_flat n v ∈ ends (flat_links airports routes) (to_flat n u).
Proof.
  destruct Hvalid as (Hs & Ht & Hn & Ha & Hr & _).
  intros Hu (l & Hl & Hor)%elem_of_ends. rewrite elem_of_ends.
  unfold flat_links, dyn_links in *. setoid_rewrite elem_of_app.
  apply elem_of_app in Hl as [(a & -> & Hl)%list_elem_of_fmap
                             |(r & -> & Hl)%list_elem_of_fmap].
  - specialize (Ha a Hl). simpl in Hor.
    assert (to_flat n n = 0 ∧ to_flat n (a - 1) = a) as [E1 E2].
    { unfold to_flat. rewrite decide_True by done. rewrite decide_False by lia.
      split; [done|lia]. }
    split; [destruct Hor as [[<- <-]|[<- <-]]; lia|].
    exists (0, a). split.
    + right. apply list_elem_of_fmap. by exists a.
    + destruct Hor as [[<- <-]|[<- <-]]; rewrite E1, E2; simpl; auto.
  - destruct (Hr r Hl) as (? & ? & ?). simpl in Hor.
    assert (to_flat n (r.1 - 1) = r.1 ∧ to_flat n (r.2 - 1) = r.2) as [E1 E2].
    { unfold to_flat. rewrite !decide_False by lia. split; lia. }
    split; [destruct Hor as [[<- <-]|[<- <-]]; lia|].
    exists r. split; [by left|].
    destruct Hor as [[<- <-]|[<- <-]]; rewrite E1, E2; auto.
Qed.

Lemma flat_in_range : in_range (Flat.build n airports routes).
Proof.
  intros c v. rewrite (flat_build_adj n s t) by done. intros Hv.
  destruct (flat_links_within n s t airports routes Hvalid) as [Hin _].
  destruct (ends_within 0 n _ c v Hin Hv) as [? _].
  cbn [node_count Flat.rep]. rewrite flat_build_size. lia.
Qed.

Lemma dyn_in_range : in_range (Dyn.build n airports routes).
Proof.
  destruct (dyn_build_adj n s t airports routes Hvalid) as [Hsz Hadj].
  intros c v. rewrite Hadj. intros Hv.
  cbn [node_count Dyn.rep]. rewrite Hsz.
  assert (links_within 0 n (dyn_links n airports routes)) as Hin.
  { destruct Hvalid as (Hs & Ht & Hn & Ha & Hr & _).
    intros l [(a & -> & Hl)%list_elem_of_fmap|(r & -> & Hl)%list_elem_of_fmap]%elem_of_app.
    - specialize (Ha a Hl). simpl. lia.
    - destruct (Hr r Hl) as (? & ? & _). simpl. lia. }
  destruct (ends_within 0 n _ c v Hin Hv) as [? _]. lia.
Qed.

(** Walks of the two graphs correspond under the renumbering. *)
Lemma walk_flat_dyn k :
  walk (Flat.build n airports routes) s k t ↔
  walk (Dyn.build n airports routes) (s - 1) k (t - 1).
Proof.
  destruct (dyn_build_adj n s t airports routes Hvalid) as [_ Hadj].
  pose proof Hvalid as (Hs & Ht & _).
  split; intros Hw.
  - apply (walk_transfer _ (Dyn.build n airports routes) (to_dyn n) (λ c, 0 ≤ c ≤ n))
      in Hw as [_ Hw]; [| |lia].
    + unfold to_dyn in Hw. by rewrite !decide_False in Hw by lia.
    + intros u v Hu. rewrite (flat_build_adj n s t), Hadj by done.
      by apply flat_to_dyn_edge.
  - apply (walk_transfer _ (Flat.build n airports routes) (to_flat n) (λ c, 0 ≤ c ≤ n))
      in Hw as [_ Hw]; [| |lia].
    + unfold to_flat in Hw. rewrite !decide_False in Hw by lia.
      by replace (s - 1 + 1) with s in Hw by lia;
         replace (t - 1 + 1) with t in Hw by lia.
    + intros u v Hu. rewrite (flat_build_adj n s t), Hadj by done.
      by apply dyn_to_flat_edge.
Qed.

Lemma shortest_flat_dyn r :
  shortest (Flat.build n airports routes) s t r ↔
  shortest (Dyn.build n airports routes) (s - 1) (t - 1) r.
Proof.
  unfold shortest, hops. by setoid_rewrite walk_flat_dyn.
Qed.

Lemma mains_same :
  ∃ r, shortest (Flat.build n airports routes) s t r ∧
       Flat.main n s t airports routes = Some (print_result r) ∧
       Dyn.main n s t airports routes = Some (print_result r).
Proof.
  pose proof Hvalid as (Hs & Ht & _).
  destruct (solve_shortest (Flat.build n airports routes) s t flat_in_range)
    as (r & Hr & Hsh); [lia|].
  destruct (solve_shortest (Dyn.build n airports routes) (s - 1) (t - 1) dyn_in_range)
    as (r' & Hr' & Hsh'); [lia|].
  apply shortest_flat_dyn in Hsh'.
  rewrite (shortest_unique _ _ _ _ _ Hsh' Hsh) in Hr'.
  exists r. unfold Flat.main, Dyn.main. by rewrite Hr, Hr'.
Qed.
End Renumbering.

(** * Runs of the loop *)

Section Runs.
Context `{GraphRep G} (g : G).

Lemma contents_head st :
  (0 <? Ring.size (queue st))%nat = true →
  ∃ rest, Ring.contents (queue st) = head_of st :: rest.
Proof.
  intros Hsz%loop_entered. unfold head_of.
  destruct (Ring.contents (queue st)) as [|x rest]; [done|]. by exists rest.
Qed.

Lemma loop_body_wf until st st' :
  Ring.wf (queue st) → (0 <? Ring.size (queue st))%nat = true →
  loop_body g until st = Next st' → Ring.wf (queue st').
Proof.
  intros Hwf [rest Hc]%contents_head Hbody.
  destruct (decide (head_of st < 0)) as [Hneg|Hpos].
  - destruct (loop_body_marker g until st _ rest Hwf Hc Hneg) as (st1 & Hb & Hwf1 & _).
    congruence.
  - destruct (decide (head_of st = until)) as [Heq|Hne].
    + rewrite Heq in Hc. rewrite (loop_body_found g until st rest Hwf Hc) in Hbody by lia.
      done.
    + destruct (loop_body_city g until st _ rest Hwf Hc ltac:(lia) Hne)
        as (st1 & Hb & Hwf1 & _).
      congruence.
Qed.

Lemma solve_run_head until fuel st :
  solve_run g fuel until st = [] ∨ ∃ tl, solve_run g fuel until st = st :: tl.
Proof. destruct fuel; [by left|right]. simpl. eauto. Qed.

(** A round of a run is one execution of the loop body, entered with a
    non-empty queue. *)
Lemma rounds_step until fuel : ∀ st0 r,
  Ring.wf (queue st0) → r ∈ rounds (solve_run g fuel until st0) →
  Ring.wf (queue r.1) ∧ (0 <? Ring.size (queue r.1))%nat = true ∧
  loop_body g until r.1 = Next r.2.
Proof.
  induction fuel as [|fuel IH]; intros st0 r Hwf Hr.
  - by apply elem_of_nil in Hr.
  - cbn [solve_run] in Hr.
    destruct (0 <? Ring.size (queue st0))%nat eqn:Hsz; [|by apply elem_of_nil in Hr].
    destruct (loop_body g until st0) as [st1| |] eqn:Hbody;
      [|by apply elem_of_nil in Hr..].
    pose proof (loop_body_wf until st0 st1 Hwf Hsz Hbody) as Hwf1.
    destruct (solve_run_head until fuel st1) as [Hnil|[tl Htl]].
    + rewrite Hnil in Hr. by apply elem_of_nil in Hr.
    + rewrite Htl in Hr. unfold rounds in Hr. cbn [tail zip zip_with] in Hr.
      apply elem_of_cons in Hr as [->|Hr]; [done|].
      apply (IH st1); [done|]. by rewrite Htl.
Qed.

Lemma solve_states_rounds fuel from until r :
  r ∈ rounds (solve_states g fuel from until) →
  Ring.wf (queue r.1) ∧ (0 <? Ring.size (queue r.1))%nat = true ∧
  loop_body g until r.1 = Next r.2.
Proof.
  unfold solve_states.
  destruct (solve_init_some from) as (st & -> & Hwf & _).
  by apply rounds_step.
Qed.

(** What a round that dequeues a city enqueues. *)
Lemma pushed_city until r :
  Ring.wf (queue r.1) → (0 <? Ring.size (queue r.1))%nat = true →
  loop_body g until r.1 = Next r.2 → 0 ≤ head_of r.1 →
  pushed r = (if 0 <? degree_of g (head_of r.1) then [- distance r.1 - 1] else [])
             ++ fresh (visited r.1) (adj g (head_of r.1)).
Proof.
  intros Hwf [rest Hc]%contents_head Hbody Hpos.
  destruct (decide (head_of r.1 = until)) as [Heq|Hne].
  - rewrite Heq in Hc. by rewrite (loop_body_found g until _ rest Hwf Hc) in Hbody by lia.
  - destruct (loop_body_city g until _ _ rest Hwf Hc Hpos Hne)
      as (st1 & Hb & _ & Hc1 & _).
    rewrite Hb in Hbody. injection Hbody as Heq. unfold pushed.
    rewrite <- Heq, Hc1, Hc.
    replace (length (head_of r.1 :: rest) - 1)%nat with (length rest)
      by (cbn [length]; lia).
    by rewrite drop_app_length.
Qed.

(** What a round that dequeues a marker enqueues: nothing. *)
Lemma pushed_marker until r :
  Ring.wf (queue r.1) → (0 <? Ring.size (queue r.1))%nat = true →
  loop_body g until r.1 = Next r.2 → head_of r.1 < 0 → pushed r = [].
Proof.
  intros Hwf [rest Hc]%contents_head Hbody Hneg.
  destruct (loop_body_marker g until _ _ rest Hwf Hc Hneg) as (st1 & Hb & _ & Hc1 & _).
  rewrite Hb in Hbody. injection Hbody as Heq. unfold pushed.
  rewrite <- Heq, Hc1, Hc.
  replace (length (head_of r.1 :: rest) - 1)%nat with (length rest)
    by (cbn [length]; lia).
  by rewrite drop_all.
Qed.

(** The loop never dequeues from an empty queue. *)
Lemma solve_loop_safe until fuel : ∀ st,
  solve_loop g fuel until st = OutOfFuel ∨ ∃ r, solve_loop g fuel until st = Returned r.
Proof.
  induction fuel as [|fuel IH]; intros st; [by left|]. cbn [solve_loop].
  destruct (0 <? Ring.size (queue st))%nat eqn:Hsz; [|right; eauto].
  unfold loop_body, Ring.circular_buffer_dequeue.
  apply Nat.ltb_lt in Hsz.
  destruct (Nat.eqb_spec (Ring.size (queue st)) 0) as [|_]; [lia|].
  destruct (_ <? 0); [apply IH|].
  destruct (_ =? until); [right; eauto|apply IH].
Qed.

(** When the run meets a state whose queue is empty, the loop returns
    [IMPOSSIBLE]. *)
Lemma solve_loop_empty until fuel : ∀ st0 st,
  st ∈ solve_run g fuel until st0 → Ring.size (queue st) = 0%nat →
  solve_loop g fuel until st0 = Returned IMPOSSIBLE.
Proof.
  induction fuel as [|fuel IH]; intros st0 st Hin Hsz; [by apply elem_of_nil in Hin|].
  cbn [solve_run solve_loop] in *.
  destruct (0 <? Ring.size (queue st0))%nat eqn:Hsz0; [|done].
  apply elem_of_cons in Hin as [->|Hin]; [by rewrite Hsz in Hsz0|].
  destruct (loop_body g until st0) as [st1| |]; [|by apply elem_of_nil in Hin..].
  by apply (IH st1 st).
Qed.
End Runs.

Section Monotone.
Context `{GraphRep G} (g : G) (s t : Z).
Hypothesis Hs : 0 ≤ s.
Hypothesis Hadj : cities_only g.

(** In a good state the markers of the queue are those of the current
    level, followed by those of the next. *)
Lemma good_marks st :
  good g s t st →
  1 ≤ distance st ∧
  ∃ A B, Ring.contents (queue st) = A ++ B ∧
         (∀ x, x ∈ A → x < 0 → x = - distance st) ∧
         (∀ x, x ∈ B → x < 0 → x = - distance st - 1).
Proof.
  intros (_ & l & A & B & Hc & Hinv). pose proof (inv_dist Hinv).
  split; [lia|]. exists A, B. split_and!; [done| |].
  - intros x Hx Hneg. destruct (inv_front Hinv x Hx) as [?|[? _]]; [done|lia].
  - intros x Hx Hneg. destruct (inv_back Hinv x Hx) as [?|[? _]]; [done|lia].
Qed.

Lemma good_head st :
  good g s t st → head_of st < 0 →
  head_of st = - distance st ∨ head_of st = - distance st - 1.
Proof.
  intros (Hd & A & B & Hc & HA & HB)%good_marks Hneg. unfold head_of in *.
  rewrite Hc in *. destruct A as [|x A]; simpl in *.
  - destruct B as [|x B]; simpl in *; [lia|]. right. apply HB; [by left|done].
  - left. apply HA; [by left|done].
Qed.

Lemma step_distance st st' :
  good g s t st → (0 <? Ring.size (queue st))%nat = true →
  loop_body g t st = Next st' → distance st ≤ distance st'.
Proof.
  intros Hgood Hsz Hbody. pose proof Hgood as [Hwf _].
  destruct (contents_head st Hsz) as [rest Hc].
  destruct (decide (head_of st < 0)) as [Hneg|Hpos].
  - destruct (loop_body_marker g t st _ rest Hwf Hc Hneg) as (st1 & Hb & _ & _ & Hd & _).
    rewrite Hb in Hbody. injection Hbody as <-.
    destruct (good_head st Hgood Hneg); lia.
  - destruct (decide (head_of st = t)) as [Heq|Hne].
    + rewrite Heq in Hc. by rewrite (loop_body_found g t st rest Hwf Hc) in Hbody by lia.
    + destruct (loop_body_city g t st _ rest Hwf Hc ltac:(lia) Hne)
        as (st1 & Hb & _ & _ & Hd & _).
      rewrite Hb in Hbody. injection Hbody as <-. lia.
Qed.

Lemma good_run fuel : ∀ st0 st,
  good g s t st0 → st ∈ solve_run g fuel t st0 →
  good g s t st ∧ distance st0 ≤ distance st.
Proof.
  induction fuel as [|fuel IH]; intros st0 st Hgood Hin; [by apply elem_of_nil in Hin|].
  cbn [solve_run] in Hin. apply elem_of_cons in Hin as [->|Hin]; [done|].
  destruct (0 <? Ring.size (queue st0))%nat eqn:Hsz; [|by apply elem_of_nil in Hin].
  pose proof (good_step g s t Hs Hadj st0 Hgood (proj1 (loop_entered st0) Hsz)) as Hstep.
  pose proof (step_distance st0) as Hd.
  destruct (loop_body g t st0) as [st1| |]; [|by apply elem_of_nil in Hin..].
  destruct (IH st1 st Hstep Hin) as [? ?]. specialize (Hd st1 Hgood Hsz eq_refl).
  split; [done|lia].
Qed.

Lemma run_sorted fuel : ∀ st0,
  good g s t st0 → StronglySorted Z.le (distance <$> solve_run g fuel t st0).
Proof.
  induction fuel as [|fuel IH]; intros st0 Hgood; [constructor|].
  pose proof (good_run (S fuel) st0) as Hall.
  cbn [solve_run] in *. rewrite fmap_cons. constructor.
  - destruct (0 <? Ring.size (queue st0))%nat eqn:Hsz; [|constructor].
    pose proof (good_step g s t Hs Hadj st0 Hgood (proj1 (loop_entered st0) Hsz)) as Hstep.
    destruct (loop_body g t st0) as [st1| |]; [by apply IH|constructor..].
  - apply list.Forall_forall. intros d (st & -> & Hin)%list_elem_of_fmap.
    apply (Hall st Hgood). by right.
Qed.

Lemma markers_sorted A B a b :
  (∀ x, x ∈ A → x < 0 → x = a) → (∀ x, x ∈ B → x < 0 → x = b) → - a ≤ - b →
  StronglySorted Z.le (Z.opp <$> markers (A ++ B)).
Proof.
  intros HA HB Hab. unfold markers.
  assert (∀ x, x ∈ List.filter (λ x, x <? 0) (A ++ B) → x = a ∨ x = b) as Hall.
  { intros x [Hin Hneg%Z.ltb_lt]%list_elem_of_In%filter_In.
    apply list_elem_of_In, elem_of_app in Hin as [Hin|Hin]; auto. }
  induction A as [|x A IH]; simpl in *.
  - clear Hall. induction B as [|x B IH]; simpl; [constructor|].
    destruct (Z.ltb_spec x 0); [|apply IH; intros; apply HB; [by right|done]].
    rewrite fmap_cons. constructor.
    + apply IH. intros; apply HB; [by right|done].
    + apply list.Forall_forall.
      intros y (z & -> & [Hin Hneg%Z.ltb_lt]%list_elem_of_In%filter_In)%list_elem_of_fmap.
      rewrite (HB x), (HB z); [lia|by right; apply list_elem_of_In|done|by left|done].
  - destruct (Z.ltb_spec x 0).
    + rewrite fmap_cons. constructor.
      * apply IH; [intros; apply HA; [by right|done]|].
        intros y Hy. apply Hall. by right.
      * apply list.Forall_forall. intros y (z & -> & Hz)%list_elem_of_fmap.
        rewrite (HA x); [|by left|done].
        destruct (Hall z) as [->| ->]; [by right|lia..].
    + apply IH; [intros; apply HA; [by right|done]|done].
Qed.
End Monotone.

(** Membership in an explicit list, by cases. *)
Ltac by_cases_on H :=
  repeat (apply elem_of_cons in H as [->|H]); [..|apply elem_of_nil in H; destruct H].

(** A concrete input is valid. *)
Ltac check_input :=
  unfold valid_input, Flat.MAX_ROUTES, Flat.MAX_CITIES;
  split_and!; try (simpl; lia);
  let x := fresh "x" in let Hx := fresh "Hx" in
  intros x Hx; by_cases_on Hx; simpl; lia.

(** The graph [src/main.c] builds from a valid input is undirected. *)
Lemma flat_undirected n s t airports routes :
  valid_input n s t airports routes → undirected (Flat.build n airports routes).
Proof.
  intros Hvalid u v. rewrite !(flat_build_adj n s t) by done. apply ends_sym.
Qed.

(** The budget of [solve] is enough: more rounds change nothing. *)
Lemma solve_fuel_enough `{GraphRep G} (g : G) from until fuel :
  in_range g → 0 ≤ from → (solve_budget g ≤ fuel)%nat →
  solve_fuel g fuel from until = solve g from until.
Proof.
  intros Hrange Hfrom Hfuel.
  destruct (solve_shortest g from until Hrange Hfrom) as (r & Hr & _).
  rewrite Hr. unfold solve, solve_fuel in *.
  destruct (solve_init from); [|done]. by eapply solve_loop_more_fuel.
Qed.

(** The loop body ends in the fatal branch exactly on an empty queue. *)
Lemma loop_body_fatal `{GraphRep G} (g : G) until st :
  loop_body g until st = Fatal ↔ Ring.size (queue st) = 0%nat.
Proof.
  unfold loop_body. rewrite <- dequeue_None.
  destruct (Ring.circular_buffer_dequeue (queue st)) as [[head q]|]; [|done].
  split; [|done]. destruct (head <? 0); [done|]. by destruct (head =? until).
Qed.

(** The source is dequeued a second time in the run on 3 cities with
    airports at 1 and 2: city 1 comes back after the hub 0 is scanned. *)
Example source_comes_back :
  head_of <$> solve_states (Flat.build 3 [1; 2] []) 20 1 2 = [1; -2; 0; -3; 1; 2].
Proof. vm_compute. reflexivity. Qed.

(** With a route from a city to itself the two programs differ, which is why
    [valid_input] asks for routes between different cities. *)
Example self_loop_route_differs :
  Flat.main 2 2 1 [] [(2, 2)] = Some ("Impossible" ++ newline)%string ∧
  Dyn.main 2 2 1 [] [(2, 2)] = Some ("1" ++ newline)%string.
Proof. split; vm_compute; reflexivity. Qed.

(** * The claims *)

(** C1, as stated: for N=3, no railway, airports at cities 1 and 2, S=1 and
    T=2 the program prints [1].  Neither program does. *)
Lemma airport_pair_does_not_print_one :
  Flat.main 3 1 2 [1; 2] [] ≠ Some ("1" ++ newline)%string ∧
  Dyn.main 3 1 2 [1; 2] [] ≠ Some ("1" ++ newline)%string.
Proof. split; intros Hone; vm_compute in Hone; discriminate Hone. Qed.

(** C1, as amended: for N=3, no railway, airports at cities 1 and 2, S=1 and
    T=2 both programs print [2]: the trip from airport to airport is 2 edges
    of the graph with the hub, [solve] returns that number of edges, and 2 is
    the least number of hops from 1 to 2. *)
Theorem airport_pair_prints_two :
  Flat.main 3 1 2 [1; 2] [] = Some ("2" ++ newline)%string ∧
  Dyn.main 3 1 2 [1; 2] [] = Some ("2" ++ newline)%string ∧
  solve (Flat.build 3 [1; 2] []) 1 2 = Returned 2 ∧
  hops (Flat.build 3 [1; 2] []) 1 2 2.
Proof.
  assert (valid_input 3 1 2 [1; 2] []) as Hvalid by check_input.
  assert (0 ≤ 1) as Hsrc by lia.
  split; [vm_compute; reflexivity|].
  split; [vm_compute; reflexivity|].
  assert (solve (Flat.build 3 [1; 2] []) 1 2 = Returned 2) as Hrun
    by (vm_compute; reflexivity).
  split; [exact Hrun|].
  pose proof (solve_shortest (Flat.build 3 [1; 2] []) 1 2
                (flat_in_range 3 1 2 [1; 2] [] Hvalid) Hsrc) as (r & Hr & Hsh).
  rewrite Hrun in Hr. injection Hr as <-.
  destruct Hsh as [[Himp _]|(k & Hk & Hh)]; [discriminate Himp|].
  assert (k = 2%nat) as -> by lia. exact Hh.
Qed.

(** C2: on every valid input the program with the flat arrays filled in two
    passes and the program with one growable list per node print the same
    line: the least number of hops from S to T when T can be reached, and
    [Impossible] otherwise. *)
Theorem flat_and_dynamic_agree n s t airports routes :
  valid_input n s t airports routes →
  Flat.main n s t airports routes = Dyn.main n s t airports routes ∧
  ∃ r, shortest (Flat.build n airports routes) s t r ∧
       Flat.main n s t airports routes = Some (print_result r).
Proof.
  intros Hvalid.
  destruct (mains_same n s t airports routes Hvalid) as (r & Hsh & Hf & Hd).
  split; [congruence|eauto].
Qed.

(** C2 on five cities, a triangle of routes and airports at 2 and 5. *)
Lemma flat_and_dynamic_agree_witness :
  valid_input 5 1 5 [2; 5] [(1, 2); (2, 3); (3, 1)] ∧
  Flat.main 5 1 5 [2; 5] [(1, 2); (2, 3); (3, 1)] =
  Dyn.main 5 1 5 [2; 5] [(1, 2); (2, 3); (3, 1)].
Proof.
  assert (valid_input 5 1 5 [2; 5] [(1, 2); (2, 3); (3, 1)]) as Hvalid by check_input.
  split; [exact Hvalid|].
  exact (proj1 (flat_and_dynamic_agree 5 1 5 [2; 5] [(1, 2); (2, 3); (3, 1)] Hvalid)).
Defined.

(** C3, as stated: in every run one marker is enqueued per frontier that
    enqueues cities, and none for a frontier that enqueues no city.  On the
    line 1 - 2 - 3 with source 1 the frontier dequeued at distance 3 enqueues
    two markers and no city. *)
Lemma one_marker_per_frontier_fails :
  ¬ one_marker_per_frontier (solve_states (Flat.build 4 [] [(1, 2); (2, 3)]) 20 1 4).
Proof.
  intros Hclaim. specialize (Hclaim 3). vm_compute in Hclaim. discriminate Hclaim.
Qed.

(** C3, as amended: in every run, a round that dequeues a marker enqueues
    nothing, and a round that dequeues a city other than the destination
    enqueues one marker for [distance + 1] exactly when the city has at
    least one neighbour entry, whether or not a neighbour is still
    unflagged, followed by the neighbours that were unflagged. *)
Theorem one_marker_per_city_with_neighbours `{GraphRep G} (g : G) fuel from until r :
  r ∈ rounds (solve_states g fuel from until) →
  (head_of r.1 < 0 → pushed r = []) ∧
  (0 ≤ head_of r.1 →
   pushed r = (if 0 <? degree_of g (head_of r.1) then [- distance r.1 - 1] else [])
              ++ fresh (visited r.1) (adj g (head_of r.1))).
Proof.
  intros (Hwf & Hsz & Hbody)%solve_states_rounds. split; intros Hhead.
  - by eapply pushed_marker.
  - by eapply pushed_city.
Qed.

(** C3 on the line 1 - 2 - 3: the round that dequeues the leaf 3. *)
Lemma one_marker_per_city_with_neighbours_witness :
  ∃ r, rounds (solve_states (Flat.build 4 [] [(1, 2); (2, 3)]) 20 1 4) !! 5%nat = Some r ∧
       head_of r.1 = 3 ∧
       pushed r = (if 0 <? degree_of (Flat.build 4 [] [(1, 2); (2, 3)]) (head_of r.1)
                   then [- distance r.1 - 1] else [])
                  ++ fresh (visited r.1) (adj (Flat.build 4 [] [(1, 2); (2, 3)]) (head_of r.1)).
Proof.
  destruct (rounds (solve_states (Flat.build 4 [] [(1, 2); (2, 3)]) 20 1 4) !! 5%nat)
    as [r|] eqn:Hr; [|vm_compute in Hr; discriminate Hr].
  exists r. split; [reflexivity|].
  assert (head_of r.1 = 3) as Hhead.
  { assert (head_of <$> (fst <$> rounds (solve_states (Flat.build 4 [] [(1, 2); (2, 3)])
                                           20 1 4)) !! 5%nat = Some 3) as Hh
      by (vm_compute; reflexivity).
    rewrite list_lookup_fmap, Hr in Hh. simpl in Hh. injection Hh as Hh. exact Hh. }
  split; [exact Hhead|].
  apply (one_marker_per_city_with_neighbours (Flat.build 4 [] [(1, 2); (2, 3)]) 20 1 4 r).
  - apply (list_elem_of_lookup_2 _ 5%nat). exact Hr.
  - rewrite Hhead. lia.
Defined.

(** C4, what the code does: when the loop is first entered the queue holds
    the source alone and [distance] is 1, but every flag is false, the flag
    of the source included. *)
Theorem solve_init_source_not_flagged from :
  ∃ st, solve_init from = Some st ∧
        Ring.contents (queue st) = [from] ∧ distance st = 1 ∧
        (∀ c, visited st c = false) ∧ visited st from = false.
Proof.
  destruct (solve_init_some from) as (st & Hst & _ & Hc & Hd & Hv).
  exists st. rewrite Hv. by split_and!.
Qed.

(** C5: for every graph and every city [x], [solve] from [x] to [x] returns
    0, whatever the edges of [x]. *)
Theorem solve_same_city `{GraphRep G} (g : G) x :
  0 ≤ x → solve g x x = Returned 0.
Proof.
  intros Hx. unfold solve, solve_fuel, solve_budget.
  destruct (solve_init_some x) as (st & -> & Hwf & Hc & Hd & _).
  rewrite Nat.add_comm. cbn [Nat.add solve_loop].
  rewrite (proj2 (loop_entered st)) by (by rewrite Hc).
  rewrite (loop_body_found g x st [] Hwf Hc Hx), Hd. done.
Qed.

(** C5 on a city without any edge. *)
Lemma solve_same_city_witness :
  solve (Flat.build 3 [] []) 2 2 = Returned 0.
Proof. apply (solve_same_city (Flat.build 3 [] []) 2). lia. Defined.

(** C6: on every graph (undirected, with neighbour entries that are nodes)
    and for all cities [a] and [b], [solve] from [a] to [b] and [solve] from
    [b] to [a] return the same: the same distance, or both [IMPOSSIBLE]. *)
Theorem solve_symmetric `{GraphRep G} (g : G) a b :
  in_range g → undirected g → 0 ≤ a → 0 ≤ b →
  solve g a b = solve g b a.
Proof.
  intros Hrange Hsym Ha Hb.
  destruct (solve_shortest g a b Hrange Ha) as (r & -> & Hr).
  destruct (solve_shortest g b a Hrange Hb) as (r' & -> & Hr').
  f_equal. apply (shortest_unique g a b); [done|]. by apply shortest_sym.
Qed.

(** C6 on the graph built from five cities, a triangle of routes and
    airports at 2 and 5. *)
Lemma solve_symmetric_witness :
  solve (Flat.build 5 [2; 5] [(1, 2); (2, 3); (3, 1)]) 1 5 =
  solve (Flat.build 5 [2; 5] [(1, 2); (2, 3); (3, 1)]) 5 1.
Proof.
  assert (valid_input 5 1 5 [2; 5] [(1, 2); (2, 3); (3, 1)]) as Hvalid by check_input.
  apply (solve_symmetric (Flat.build 5 [2; 5] [(1, 2); (2, 3); (3, 1)]) 1 5).
  - exact (flat_in_range 5 1 5 _ _ Hvalid).
  - exact (flat_undirected 5 1 5 _ _ Hvalid).
  - lia.
  - lia.
Defined.

(** C7: when a run of [solve] comes to an empty queue, the destination not
    having been dequeued, [solve] returns [IMPOSSIBLE] and the program
    prints the line [Impossible]; for N=2, no route, no airport, S=1 and T=2
    both programs print [Impossible]. *)
Theorem empty_queue_prints_impossible :
  (∀ `{GraphRep G} (g : G) fuel from until st,
     st ∈ solve_states g fuel from until → Ring.size (queue st) = 0%nat →
     solve_fuel g fuel from until = Returned IMPOSSIBLE ∧
     print_outcome (solve_fuel g fuel from until) = Some ("Impossible" ++ newline)%string) ∧
  Flat.main 2 1 2 [] [] = Some ("Impossible" ++ newline)%string ∧
  Dyn.main 2 1 2 [] [] = Some ("Impossible" ++ newline)%string.
Proof.
  split; [|split; vm_compute; reflexivity].
  intros G HG g fuel from until st Hin Hsz.
  assert (solve_fuel g fuel from until = Returned IMPOSSIBLE) as ->; [|done].
  unfold solve_fuel, solve_states in *.
  destruct (solve_init from) as [st0|]; [|done]. by eapply solve_loop_empty.
Qed.

(** C7 on two cities without routes or airports: the second state of the
    run has an empty queue. *)
Lemma empty_queue_prints_impossible_witness :
  ∃ st, solve_states (Flat.build 2 [] []) 7 1 2 !! 1%nat = Some st ∧
        Ring.size (queue st) = 0%nat ∧
        solve_fuel (Flat.build 2 [] []) 7 1 2 = Returned IMPOSSIBLE.
Proof.
  destruct (solve_states (Flat.build 2 [] []) 7 1 2 !! 1%nat) as [st|] eqn:Hst;
    [|vm_compute in Hst; discriminate Hst].
  exists st. split; [reflexivity|].
  assert (Ring.size (queue st) = 0%nat) as Hsz.
  { assert ((Ring.size ∘ queue) <$> solve_states (Flat.build 2 [] []) 7 1 2 !! 1%nat
            = Some 0%nat) as Hh by (vm_compute; reflexivity).
    rewrite Hst in Hh. simpl in Hh. injection Hh as Hh. exact Hh. }
  split; [exact Hsz|].
  apply (proj1 empty_queue_prints_impossible _ _ (Flat.build 2 [] []) 7%nat 1 2 st).
  - apply (list_elem_of_lookup_2 _ 1%nat). exact Hst.
  - exact Hsz.
Defined.

(** C8: for every sequence of enqueue and dequeue operations on a buffer
    made by [make_circular_buffer], the dequeues return the items in the
    order they were enqueued, exactly as the list queue does, however often
    the buffer has grown. *)
Theorem circular_buffer_fifo cap ops buffer :
  Ring.make_circular_buffer cap = Some buffer →
  Ring.run ops buffer = Ring.fifo ops [].
Proof.
  intros [Hwf Hc]%make_circular_buffer_wf. by rewrite run_fifo, Hc.
Qed.

(** C8 with 200 items through a buffer of capacity 128. *)
Lemma circular_buffer_fifo_witness :
  ∃ buffer, Ring.make_circular_buffer 128 = Some buffer ∧
    Ring.run ((Ring.Enqueue <$> seqZ 0 200) ++ replicate 200 Ring.Dequeue) buffer =
    Some (seqZ 0 200).
Proof.
  eexists. split; [reflexivity|].
  rewrite (circular_buffer_fifo 128 _ _ eq_refl). vm_compute. reflexivity.
Defined.

(** C9: no run of [solve] ends in the fatal branch of
    [circular_buffer_dequeue]: whatever the graph, the cities and the number
    of rounds, the run returns a value or is still running. *)
Theorem solve_never_dequeues_empty `{GraphRep G} (g : G) fuel from until :
  solve_fuel g fuel from until = OutOfFuel ∨
  ∃ r, solve_fuel g fuel from until = Returned r.
Proof.
  unfold solve_fuel. destruct (solve_init from); [|right; eauto].
  apply solve_loop_safe.
Qed.

(** C10: in every run of [solve] on a graph whose neighbour entries are
    cities, [distance] never decreases from one round to the next; a marker
    at the head of the queue decodes to a value not below the current
    [distance]; and the markers of the queue decode to values that do not
    decrease from the front to the back. *)
Theorem distance_never_decreases `{GraphRep G} (g : G) fuel from until :
  cities_only g → 0 ≤ from →
  StronglySorted Z.le (distance <$> solve_states g fuel from until) ∧
  (∀ st, st ∈ solve_states g fuel from until → head_of st < 0 →
         distance st ≤ - head_of st) ∧
  (∀ st, st ∈ solve_states g fuel from until →
         StronglySorted Z.le (Z.opp <$> markers (Ring.contents (queue st)))).
Proof.
  intros Hadj Hfrom. unfold solve_states.
  destruct (solve_init from) as [st0|] eqn:Hinit;
    [|split_and!; [constructor|by intros ? ?%elem_of_nil..]].
  pose proof (good_init g from until Hfrom st0 Hinit) as Hgood.
  split_and!.
  - by apply (run_sorted g from until).
  - intros st Hin Hneg.
    destruct (good_run g from until Hfrom Hadj fuel st0 st Hgood Hin) as [Hst _].
    destruct (good_head g from until st Hst Hneg); lia.
  - intros st Hin.
    destruct (good_run g from until Hfrom Hadj fuel st0 st Hgood Hin) as [Hst _].
    destruct (good_marks g from until st Hst) as (_ & A & B & -> & HA & HB).
    eapply markers_sorted; [done..|lia].
Qed.

(** C10 on the graph built from five cities, a triangle of routes and
    airports at 2 and 5. *)
Lemma distance_never_decreases_witness :
  StronglySorted Z.le
    (distance <$> solve_states (Flat.build 5 [2; 5] [(1, 2); (2, 3); (3, 1)]) 20 1 5).
Proof.
  assert (valid_input 5 1 5 [2; 5] [(1, 2); (2, 3); (3, 1)]) as Hvalid by check_input.
  apply (distance_never_decreases (Flat.build 5 [2; 5] [(1, 2); (2, 3); (3, 1)]) 20 1 5).
  - apply in_range_cities_only. exact (flat_in_range 5 1 5 _ _ Hvalid).
  - lia.
Defined.

(** * Beyond the claims: more of [solve] *)

(** * More about [solve] *)

Section SolveBounds.
Context `{GraphRep G} (g : G).
Hypothesis Hrange : in_range g.

(** A run is no longer than the rounds its first state leaves, and one. *)
Lemma solve_run_length s t fuel : ∀ st0,
  0 ≤ s → good g s t st0 →
  (length (solve_run g fuel t st0) ≤ rounds_left g st0 + 1)%nat.
Proof.
  induction fuel as [|fuel IH]; intros st0 Hs Hgood; [simpl; lia|].
  cbn [solve_run length].
  destruct (0 <? Ring.size (queue st0))%nat eqn:Hsz; [|simpl; lia].
  pose proof (proj1 (loop_entered st0) Hsz) as Hne.
  pose proof (good_step g s t Hs (in_range_cities_only g Hrange) st0 Hgood Hne) as Hstep.
  destruct (loop_body g t st0) as [st1| |] eqn:Hbody; [|simpl; lia..].
  specialize (IH st1 Hs Hstep).
  destruct Hgood as (Hwf & l & A & B & _ & Hinv).
  pose proof (inv_dist Hinv).
  pose proof (round_decreases g Hrange t st0 st1 Hwf ltac:(lia) Hne Hbody). lia.
Qed.

(** The cities at 0, 1, ..., k hops on the way to a city at [k] hops. *)
Lemma hops_levels a : ∀ k b,
  hops g a b k →
  ∃ vs, length vs = S k ∧ ∀ i v, vs !! i = Some v → hops g a v i.
Proof.
  induction k as [|k IH]; intros b Hb.
  - exists [b]. split; [done|]. intros [|i] v Hv; [|done].
    injection Hv as <-. done.
  - destruct Hb as [Hw Hmin]. destruct (walk_pred g a k b Hw) as (u & Hu & Hbu).
    assert (hops g a u k) as Hhu.
    { split; [done|]. intros j Hj Hwj. apply (Hmin (S j)); [lia|]. by econstructor. }
    destruct (IH u Hhu) as (vs & Hlen & Hvs).
    exists (vs ++ [b]). split; [rewrite length_app; simpl; lia|].
    intros i v Hv. apply lookup_app_Some in Hv as [Hv|[Hi Hv]]; [by apply Hvs|].
    rewrite Hlen in Hi, Hv.
    destruct (i - S k)%nat as [|?] eqn:Hd; [|done].
    injection Hv as <-. replace i with (S k) by lia. done.
Qed.

Lemma walk_in_range a k v :
  0 ≤ a < Z.of_nat (node_count g) → walk g a k v → 0 ≤ v < Z.of_nat (node_count g).
Proof. intros Ha. induction 1; [done|]. by eapply Hrange. Qed.

(** A least number of hops is below the number of nodes. *)
Lemma hops_below_node_count a b k :
  0 ≤ a < Z.of_nat (node_count g) → hops g a b k → (k < node_count g)%nat.
Proof.
  intros Ha Hb. destruct (hops_levels a k b Hb) as (vs & Hlen & Hvs).
  assert (NoDup vs) as Hnd.
  { apply NoDup_alt. intros i j v Hi Hj.
    apply (hops_unique g a v); by apply Hvs. }
  assert (vs ⊆ seqZ 0 (Z.of_nat (node_count g))) as Hsub.
  { intros v [i Hi]%list_elem_of_lookup_1. apply elem_of_seqZ.
    destruct (Hvs i v Hi) as [Hw _].
    pose proof (walk_in_range a i v Ha Hw). lia. }
  pose proof (submseteq_length _ _ (NoDup_submseteq _ _ Hnd Hsub)) as Hle.
  rewrite length_seqZ in Hle. lia.
Qed.

Lemma walk_app a k u j v : walk g a k u → walk g u j v → walk g a (k + j) v.
Proof.
  intros Hau Huv. induction Huv as [|j w v Huw IH Hv].
  - by rewrite Nat.add_0_r.
  - rewrite Nat.add_succ_r. by econstructor.
Qed.

(** When there is a walk there is a least number of hops, which [solve]
    finds. *)
Lemma walk_solve a b k :
  0 ≤ a → walk g a k b →
  ∃ j, (j ≤ k)%nat ∧ solve g a b = Returned (Z.of_nat j) ∧ hops g a b j.
Proof.
  intros Ha Hw. destruct (solve_shortest g a b Hrange Ha) as (r & Hr & Hsh).
  destruct Hsh as [[_ Hno]|(j & -> & Hj)]; [by destruct (Hno k)|].
  exists j. split_and!; [|done..].
  destruct (decide (j ≤ k)%nat) as [|Hgt]; [done|].
  destruct Hj as [_ Hmin]. destruct (Hmin k); [lia|done].
Qed.
End SolveBounds.

(** [solve] depends on the neighbours of each city as a set only. *)
Lemma solve_ext `{GraphRep G1} `{GraphRep G2} (g1 : G1) (g2 : G2) a b :
  in_range g1 → in_range g2 → (∀ u v, v ∈ adj g1 u ↔ v ∈ adj g2 u) → 0 ≤ a →
  solve g1 a b = solve g2 a b.
Proof.
  intros Hr1 Hr2 Hsame Ha.
  destruct (solve_shortest g1 a b Hr1 Ha) as (r1 & -> & Hs1).
  destruct (solve_shortest g2 a b Hr2 Ha) as (r2 & -> & Hs2).
  f_equal. apply (shortest_unique g1 a b); [done|].
  assert (∀ k v, walk g2 a k v → walk g1 a k v) as H21.
  { intros k v Hw.
    apply (walk_transfer g2 g1 id (λ _, True)) in Hw as [_ Hw]; [done| |done].
    intros u w _ Hw'. split; [done|]. by apply Hsame. }
  assert (∀ k v, walk g1 a k v → walk g2 a k v) as H12.
  { intros k v Hw.
    apply (walk_transfer g1 g2 id (λ _, True)) in Hw as [_ Hw]; [done| |done].
    intros u w _ Hw'. split; [done|]. by apply Hsame. }
  destruct Hs2 as [[-> Hno]|(k & -> & Hw & Hmin)].
  - left. split; [done|]. intros k Hw. by apply (Hno k), H12.
  - right. exists k. split; [done|]. split; [by apply H21|].
    intros j Hj Hw'. by apply (Hmin j Hj), H12.
Qed.

(** X1: [solve] returns the least number of hops from the source to the
    destination, and [IMPOSSIBLE] exactly when no walk leads there. *)
Theorem solve_least_hops `{GraphRep G} (g : G) from until :
  in_range g → 0 ≤ from →
  ∃ r, solve g from until = Returned r ∧ shortest g from until r ∧
       (r = IMPOSSIBLE ↔ ∀ k, ¬ walk g from k until).
Proof.
  intros Hrange Hfrom.
  destruct (solve_shortest g from until Hrange Hfrom) as (r & Hr & Hsh).
  exists r. split_and!; [done..|]. unfold IMPOSSIBLE in *.
  destruct Hsh as [[-> Hno]|(k & -> & Hk)]; [done|].
  split; [lia|]. intros Hno. by destruct (Hno k), Hk.
Qed.

(** X2: The test of the loop of [solve] is reached at most
    [2 * graph.size + 3] times, however many rounds the run is given. *)
Theorem solve_rounds_bounded `{GraphRep G} (g : G) fuel from until :
  in_range g → 0 ≤ from →
  (length (solve_states g fuel from until) ≤ 2 * node_count g + 3)%nat.
Proof.
  intros Hrange Hfrom. unfold solve_states.
  destruct (solve_init from) as [st0|] eqn:Hinit; [|simpl; lia].
  pose proof (good_init g from until Hfrom st0 Hinit) as Hgood.
  pose proof (solve_run_length g Hrange from until fuel st0 Hfrom Hgood).
  pose proof (rounds_left_init g from st0 Hinit). unfold solve_budget in *. lia.
Qed.

(** X3: What [solve] returns is [IMPOSSIBLE] or a number of hops from 0 to
    [graph.size - 1]. *)
Theorem solve_result_range `{GraphRep G} (g : G) from until r :
  in_range g → 0 ≤ from < Z.of_nat (node_count g) →
  solve g from until = Returned r →
  r = IMPOSSIBLE ∨ 0 ≤ r < Z.of_nat (node_count g).
Proof.
  intros Hrange Hfrom Hr.
  destruct (solve_shortest g from until Hrange ltac:(lia)) as (r' & Hr' & Hsh).
  rewrite Hr in Hr'. injection Hr' as <-.
  destruct Hsh as [[-> _]|(k & -> & Hk)]; [by left|right].
  pose proof (hops_below_node_count g Hrange from until k Hfrom Hk). lia.
Qed.

(** X4: Triangle inequality: when [c] is reached from [a] in [x] hops and [b]
    from [c] in [y] hops, [solve] from [a] to [b] returns at most [x + y]. *)
Theorem solve_triangle `{GraphRep G} (g : G) a c b x y :
  in_range g → 0 ≤ a → 0 ≤ c →
  solve g a c = Returned x → solve g c b = Returned y → 0 ≤ x → 0 ≤ y →
  ∃ z, solve g a b = Returned z ∧ 0 ≤ z ≤ x + y.
Proof.
  intros Hrange Ha Hc Hx Hy Hx0 Hy0.
  destruct (solve_shortest g a c Hrange Ha) as (x' & Hx' & Hshx).
  destruct (solve_shortest g c b Hrange Hc) as (y' & Hy' & Hshy).
  rewrite Hx in Hx'. injection Hx' as <-. rewrite Hy in Hy'. injection Hy' as <-.
  unfold IMPOSSIBLE in *.
  destruct Hshx as [[-> _]|(i & -> & [Hwi _])]; [unfold IMPOSSIBLE in *; lia|].
  destruct Hshy as [[-> _]|(j & -> & [Hwj _])]; [unfold IMPOSSIBLE in *; lia|].
  destruct (walk_solve g Hrange a b (i + j) Ha (walk_app g a i c j b Hwi Hwj))
    as (k & Hk & Hz & _).
  exists (Z.of_nat k). split; [done|lia].
Qed.

(** X5: The order of the neighbours and their repetitions do not matter: on two
    graphs, of either representation, in which every city has the same
    neighbours, [solve] returns the same. *)
Theorem solve_same_neighbours `{GraphRep G1} `{GraphRep G2} (g1 : G1) (g2 : G2) a b :
  in_range g1 → in_range g2 → (∀ u v, v ∈ adj g1 u ↔ v ∈ adj g2 u) → 0 ≤ a →
  solve g1 a b = solve g2 a b.
Proof.
  intros Hr1 Hr2 Hsame Ha. by apply solve_ext.
Qed.


(** The least number of hops on the graph built from five cities, a triangle
    of routes and airports at 2 and 5, from city 1 to city 5. *)
Lemma solve_least_hops_witness :
  ∃ r, solve (Flat.build 5 [2; 5] [(1, 2); (2, 3); (3, 1)]) 1 5 = Returned r ∧
       shortest (Flat.build 5 [2; 5] [(1, 2); (2, 3); (3, 1)]) 1 5 r ∧
       (r = IMPOSSIBLE ↔ ∀ k, ¬ walk (Flat.build 5 [2; 5] [(1, 2); (2, 3); (3, 1)]) 1 k 5).
Proof.
  assert (valid_input 5 1 5 [2; 5] [(1, 2); (2, 3); (3, 1)]) as Hvalid by check_input.
  apply (solve_least_hops (Flat.build 5 [2; 5] [(1, 2); (2, 3); (3, 1)]) 1 5).
  - exact (flat_in_range 5 1 5 _ _ Hvalid).
  - lia.
Defined.

(** The bound on the rounds, on the same graph. *)
Lemma solve_rounds_bounded_witness :
  (length (solve_states (Flat.build 5 [2; 5] [(1, 2); (2, 3); (3, 1)]) 100 1 4)%Z ≤
   2 * node_count (Flat.build 5 [2; 5] [(1, 2); (2, 3); (3, 1)])%Z + 3)%nat.
Proof.
  assert (valid_input 5 1 5 [2; 5] [(1, 2); (2, 3); (3, 1)]) as Hvalid by check_input.
  apply (solve_rounds_bounded (Flat.build 5 [2; 5] [(1, 2); (2, 3); (3, 1)]) 100 1 4).
  - exact (flat_in_range 5 1 5 _ _ Hvalid).
  - lia.
Defined.

(** The range of the result, on the same graph: 3 hops from 1 to 5. *)
Lemma solve_result_range_witness :
  solve (Flat.build 5 [2; 5] [(1, 2); (2, 3); (3, 1)]) 1 5 = Returned 3 ∧
  (3 = IMPOSSIBLE ∨
   0 ≤ 3 < Z.of_nat (node_count (Flat.build 5 [2; 5] [(1, 2); (2, 3); (3, 1)]))).
Proof.
  assert (valid_input 5 1 5 [2; 5] [(1, 2); (2, 3); (3, 1)]) as Hvalid by check_input.
  assert (Z.of_nat (node_count (Flat.build 5 [2; 5] [(1, 2); (2, 3); (3, 1)])) = 6) as Hn
    by (vm_compute; reflexivity).
  split; [vm_compute; reflexivity|].
  apply (solve_result_range (Flat.build 5 [2; 5] [(1, 2); (2, 3); (3, 1)]) 1 5 3).
  - exact (flat_in_range 5 1 5 _ _ Hvalid).
  - rewrite Hn. lia.
  - vm_compute. reflexivity.
Defined.

(** The triangle inequality on the same graph: from 1 to 2 and from 2 to 5. *)
Lemma solve_triangle_witness :
  solve (Flat.build 5 [2; 5] [(1, 2); (2, 3); (3, 1)]) 1 2 = Returned 1 ∧
  solve (Flat.build 5 [2; 5] [(1, 2); (2, 3); (3, 1)]) 2 5 = Returned 2 ∧
  ∃ z, solve (Flat.build 5 [2; 5] [(1, 2); (2, 3); (3, 1)]) 1 5 = Returned z ∧
       0 ≤ z ≤ 1 + 2.
Proof.
  assert (valid_input 5 1 5 [2; 5] [(1, 2); (2, 3); (3, 1)]) as Hvalid by check_input.
  split; [vm_compute; reflexivity|]. split; [vm_compute; reflexivity|].
  apply (solve_triangle (Flat.build 5 [2; 5] [(1, 2); (2, 3); (3, 1)]) 1 2 5 1 2).
  - exact (flat_in_range 5 1 5 _ _ Hvalid).
  - lia.
  - lia.
  - vm_compute. reflexivity.
  - vm_compute. reflexivity.
  - lia.
  - lia.
Defined.

(** * The scanner *)

(** * The scanner *)

Section ScannerFacts.

Lemma buffer_size_large : 1 < BUFFER_SIZE - 1.
Proof. unfold BUFFER_SIZE. lia. Qed.

Lemma junk_test c : (c <? 48) || (57 <? c) = true ↔ ¬ is_digit c.
Proof.
  unfold is_digit. destruct (Z.ltb_spec c 48), (Z.ltb_spec 57 c); simpl; split; (done || lia).
Qed.

Lemma digit_test c : (48 <=? c) && (c <=? 57) = true ↔ is_digit c.
Proof.
  unfold is_digit. destruct (Z.leb_spec 48 c), (Z.leb_spec c 57); simpl; split; (done || lia).
Qed.

Lemma fmap_lookup_seqZ (f : Z → Z) (l : list Z) :
  (∀ i, (i < length l)%nat → f (Z.of_nat i) = l !!! i) →
  f <$> seqZ 0 (Z.of_nat (length l)) = l.
Proof.
  intros Hf. apply list_eq. intros i. rewrite list_lookup_fmap.
  destruct (decide (i < length l)%nat) as [Hi|Hi].
  - rewrite lookup_seqZ_lt by lia. cbn [fmap option_fmap option_map].
    rewrite Z.add_0_l, Hf by done.
    symmetry. by apply list_lookup_lookup_total_lt.
  - rewrite lookup_seqZ_ge by lia. simpl. symmetry. apply lookup_ge_None. lia.
Qed.

(** What [fread] leaves: the chunk at the front of the buffer, the rest of
    stdin behind it. *)
Lemma fread_pending sc :
  let r := fread sc in
  0 ≤ r.1 ≤ BUFFER_SIZE - 1 ∧
  (input_buffer r.2 <$> seqZ 0 r.1) ++ stdin r.2 = stdin sc ∧
  (r.1 < BUFFER_SIZE - 1 → stdin r.2 = []) ∧
  (r.1 = 0 → stdin sc = []).
Proof.
  pose proof buffer_size_large as Hbig.
  unfold fread. cbn [fst snd input_buffer stdin].
  set (N := Z.to_nat (BUFFER_SIZE - 1)).
  pose proof (length_take (stdin sc) N) as Hlen.
  split_and!.
  - lia.
  - lia.
  - rewrite fmap_lookup_seqZ; [apply take_drop|].
    intros i Hi. rewrite decide_True by lia. by rewrite Nat2Z.id.
  - intros Hshort. apply drop_ge. lia.
  - intros Hzero. destruct (stdin sc) as [|x l]; [done|].
    destruct N as [|N'] eqn:HN; [lia|]. simpl in Hzero. lia.
Qed.

(** The byte under [input_ptr] is the first pending one, and [advance]
    passes exactly that byte, across a refill of the buffer if need be. *)
Lemma advance_pending filled sc x rest :
  fed filled sc → pending filled sc = x :: rest →
  input_buffer sc (input_ptr sc) = x ∧
  ∃ filled', fed filled' (advance sc) ∧ pending filled' (advance sc) = rest.
Proof.
  pose proof buffer_size_large as Hbig.
  intros (Hptr & Hfill & Hend & Heof) Hpend. unfold pending in Hpend.
  destruct (decide (input_ptr sc < filled)) as [Hlt|Hge].
  - rewrite seqZ_cons in Hpend by lia. rewrite fmap_cons in Hpend.
    injection Hpend as Hx Hrest. split; [done|].
    unfold advance, input_ptr_end. cbn [input_ptr set_ptr].
    destruct (Z.eqb_spec (input_ptr sc + 1) (BUFFER_SIZE - 1)) as [Hlast|Hmore].
    + rewrite seqZ_nil in Hrest by lia. simpl in Hrest.
      destruct (fread_pending (set_ptr sc (input_ptr sc + 1)))
        as (Hr & Hcat & Hshort & Hzero).
      set (r := fread (set_ptr sc (input_ptr sc + 1))) in *.
      cbn [stdin set_ptr] in Hcat, Hzero.
      exists r.1. split.
      * unfold fed. destruct (r.1 =? 0); cbn [input_ptr stdin set_ptr set_char];
          split_and!; (done || lia).
      * unfold pending. cbn [input_ptr set_ptr]. rewrite Z.sub_0_r.
        destruct (Z.eqb_spec r.1 0) as [Hz|Hnz].
        -- rewrite Hz, seqZ_nil by lia. cbn [stdin set_ptr set_char]. simpl.
           rewrite Hz, seqZ_nil in Hcat by lia. simpl in Hcat. congruence.
        -- cbn [input_buffer stdin set_ptr]. congruence.
    + exists filled. split.
      * unfold fed. cbn [input_ptr stdin set_ptr]. split_and!; (done || lia).
      * unfold pending. cbn [input_ptr input_buffer stdin set_ptr].
        rewrite <- Hrest. do 3 f_equal; lia.
  - rewrite seqZ_nil in Hpend by lia. simpl in Hpend.
    rewrite Heof in Hpend by lia. done.
Qed.

Lemma skip_junk_spec junk : ∀ fuel sc filled x rest,
  fed filled sc → pending filled sc = junk ++ x :: rest →
  Forall (λ c, ¬ is_digit c) junk → is_digit x → (length junk < fuel)%nat →
  ∃ sc' filled', skip_junk fuel sc = Some sc' ∧ fed filled' sc' ∧
                 pending filled' sc' = x :: rest.
Proof.
  induction junk as [|c junk IH]; intros fuel sc filled x rest Hfed Hpend Hjunk Hx Hfuel;
    (destruct fuel as [|fuel]; [simpl in Hfuel; lia|]); cbn [skip_junk].
  - destruct (advance_pending filled sc x rest Hfed Hpend) as [-> _].
    assert ((x <? 48) || (57 <? x) = false) as ->.
    { apply not_true_iff_false. rewrite junk_test. tauto. }
    eauto.
  - apply list.Forall_cons in Hjunk as [Hc Hjunk].
    destruct (advance_pending filled sc c (junk ++ x :: rest) Hfed Hpend)
      as [-> (filled' & Hfed' & Hpend')].
    rewrite (proj2 (junk_test c)) by done.
    apply (IH fuel _ filled'); (done || simpl in Hfuel; lia).
Qed.

Lemma take_digits_spec ds : ∀ fuel n sc filled c rest,
  fed filled sc → pending filled sc = ds ++ c :: rest →
  Forall is_digit ds → ¬ is_digit c → (length ds < fuel)%nat →
  ∃ sc' filled',
    take_digits fuel n sc = Some (fold_left (λ n c, n * 10 + (c - 48)) ds n, sc') ∧
    fed filled' sc' ∧ pending filled' sc' = c :: rest.
Proof.
  induction ds as [|d ds IH]; intros fuel n sc filled c rest Hfed Hpend Hds Hc Hfuel;
    (destruct fuel as [|fuel]; [simpl in Hfuel; lia|]); cbn [take_digits].
  - destruct (advance_pending filled sc c rest Hfed Hpend) as [-> _].
    assert ((48 <=? c) && (c <=? 57) = false) as ->.
    { apply not_true_iff_false. by rewrite digit_test. }
    eauto.
  - apply list.Forall_cons in Hds as [Hd Hds].
    destruct (advance_pending filled sc d (ds ++ c :: rest) Hfed Hpend)
      as [-> (filled' & Hfed' & Hpend')].
    rewrite (proj2 (digit_test d)) by done.
    apply (IH fuel _ _ filled'); (done || simpl in Hfuel; lia).
Qed.

(** One call of [scan_int] on a stream that holds a number. *)
Lemma scan_int_reads fuel sc filled x nums :
  fed filled sc → reads (pending filled sc) (x :: nums) →
  (length (pending filled sc) < fuel)%nat →
  ∃ sc' filled', scan_int fuel sc = Some (x, sc') ∧ fed filled' sc' ∧
                 reads (pending filled' sc') nums ∧
                 (length (pending filled' sc') < length (pending filled sc))%nat.
Proof.
  intros Hfed Hreads Hfuel.
  inversion Hreads as [|junk ds c rest nums' Hjunk Hds Hne Hc Hrest Hpend]; subst.
  symmetry in Hpend. rewrite Hpend in Hfuel. rewrite !length_app in Hfuel.
  destruct ds as [|d ds]; [done|].
  destruct (skip_junk_spec junk fuel sc filled d (ds ++ c :: rest) Hfed)
    as (sc1 & filled1 & Hskip & Hfed1 & Hpend1);
    [done|done|by apply list.Forall_cons in Hds as []|lia|].
  destruct (take_digits_spec (d :: ds) fuel 0 sc1 filled1 c rest Hfed1 Hpend1 Hds Hc)
    as (sc2 & filled2 & Htake & Hfed2 & Hpend2); [simpl in *; lia|].
  exists sc2, filled2. unfold scan_int. rewrite Hskip. cbn [mbind option_bind].
  split_and!; [done|done|by rewrite Hpend2|].
  rewrite Hpend2, !length_app. simpl. lia.
Qed.

Lemma scan_ints_reads fuel xs : ∀ sc filled ys,
  fed filled sc → reads (pending filled sc) (xs ++ ys) →
  (length (pending filled sc) < fuel)%nat →
  ∃ sc' filled', scan_ints fuel (length xs) sc = Some (xs, sc') ∧ fed filled' sc' ∧
                 reads (pending filled' sc') ys ∧
                 (length (pending filled' sc') ≤ length (pending filled sc))%nat.
Proof.
  induction xs as [|x xs IH]; intros sc filled ys Hfed Hreads Hfuel.
  - exists sc, filled. by split_and!.
  - destruct (scan_int_reads fuel sc filled x (xs ++ ys) Hfed Hreads Hfuel)
      as (sc1 & filled1 & Hscan & Hfed1 & Hreads1 & Hlen1).
    destruct (IH sc1 filled1 ys Hfed1 Hreads1) as (sc2 & filled2 & Hrec & ? & ? & ?);
      [lia|].
    exists sc2, filled2. cbn [scan_ints length]. rewrite Hscan. cbn [mbind option_bind snd].
    rewrite Hrec. split_and!; (done || lia).
Qed.

Lemma scan_pairs_reads fuel rs : ∀ sc filled ys,
  fed filled sc →
  reads (pending filled sc) (concat ((λ r : Z * Z, [r.1; r.2]) <$> rs) ++ ys) →
  (length (pending filled sc) < fuel)%nat →
  ∃ sc' filled', scan_pairs fuel (length rs) sc = Some (rs, sc') ∧ fed filled' sc' ∧
                 reads (pending filled' sc') ys.
Proof.
  induction rs as [|[a b] rs IH]; intros sc filled ys Hfed Hreads Hfuel.
  - exists sc, filled. by split_and!.
  - rewrite fmap_cons in Hreads. cbn [concat fst snd app] in Hreads.
    destruct (scan_int_reads fuel sc filled a _ Hfed Hreads Hfuel)
      as (sc1 & filled1 & Hscan1 & Hfed1 & Hreads1 & Hlen1).
    destruct (scan_int_reads fuel sc1 filled1 b _ Hfed1 Hreads1 ltac:(lia))
      as (sc2 & filled2 & Hscan2 & Hfed2 & Hreads2 & Hlen2).
    destruct (IH sc2 filled2 ys Hfed2 Hreads2) as (sc3 & filled3 & Hrec & ? & ?); [lia|].
    exists sc3, filled3. cbn [scan_pairs length]. rewrite Hscan1.
    cbn [mbind option_bind snd]. rewrite Hscan2. cbn [mbind option_bind snd fst].
    rewrite Hrec. by split_and!.
Qed.

(** After [scan_init] everything is pending. *)
Lemma scan_init_pending bytes :
  ∃ filled, fed filled (scan_init (scanner_start bytes)) ∧
            pending filled (scan_init (scanner_start bytes)) = bytes.
Proof.
  pose proof buffer_size_large as Hbig. unfold scan_init.
  destruct (fread_pending (set_char (scanner_start bytes) (BUFFER_SIZE - 1) 0))
    as (Hr & Hcat & Hshort & _).
  set (r := fread _) in *. cbn [stdin set_char scanner_start] in Hcat.
  exists r.1. split.
  - unfold fed. cbn [input_ptr stdin set_ptr]. split_and!; (done || lia).
  - unfold pending. cbn [input_ptr input_buffer stdin set_ptr]. by rewrite Z.sub_0_r.
Qed.

Lemma read_input_reads fuel bytes n s t airports routes :
  reads bytes (input_numbers n s t airports routes) →
  (length bytes < fuel)%nat →
  read_input fuel bytes =
  Some {| in_n := n; in_m := Z.of_nat (length routes);
          in_k := Z.of_nat (length airports); in_s := s; in_t := t;
          in_airports := airports; in_routes := routes |}.
Proof.
  intros Hreads Hfuel. unfold read_input, input_numbers in *.
  destruct (scan_init_pending bytes) as (f0 & Hfed0 & Hpend0).
  set (sc0 := scan_init (scanner_start bytes)) in *.
  rewrite <- Hpend0 in Hreads, Hfuel. clear Hpend0. cbn [app] in Hreads.
  destruct (scan_int_reads fuel sc0 f0 _ _ Hfed0 Hreads Hfuel)
    as (sc1 & f1 & -> & Hfed1 & Hreads1 & Hlen1).
  destruct (scan_int_reads fuel sc1 f1 _ _ Hfed1 Hreads1 ltac:(lia))
    as (sc2 & f2 & Hs2 & Hfed2 & Hreads2 & Hlen2).
  destruct (scan_int_reads fuel sc2 f2 _ _ Hfed2 Hreads2 ltac:(lia))
    as (sc3 & f3 & Hs3 & Hfed3 & Hreads3 & Hlen3).
  destruct (scan_int_reads fuel sc3 f3 _ _ Hfed3 Hreads3 ltac:(lia))
    as (sc4 & f4 & Hs4 & Hfed4 & Hreads4 & Hlen4).
  destruct (scan_int_reads fuel sc4 f4 _ _ Hfed4 Hreads4 ltac:(lia))
    as (sc5 & f5 & Hs5 & Hfed5 & Hreads5 & Hlen5).
  destruct (scan_ints_reads fuel airports sc5 f5 _ Hfed5 Hreads5 ltac:(lia))
    as (sc6 & f6 & Hs6 & Hfed6 & Hreads6 & Hlen6).
  rewrite <- (app_nil_r (concat _)) in Hreads6.
  destruct (scan_pairs_reads fuel routes sc6 f6 [] Hfed6 Hreads6 ltac:(lia))
    as (sc7 & f7 & Hs7 & _).
  cbn [mbind option_bind fst snd]. rewrite Hs2. cbn [mbind option_bind fst snd].
  rewrite Hs3. cbn [mbind option_bind fst snd].
  rewrite Hs4. cbn [mbind option_bind fst snd].
  rewrite Hs5. cbn [mbind option_bind fst snd].
  rewrite !Nat2Z.id, Hs6. cbn [mbind option_bind fst snd].
  rewrite Hs7. done.
Qed.

(** Without a digit anywhere the first loop of [scan_int] goes round and
    round. *)
Lemma skip_junk_no_digit fuel : ∀ sc,
  (∀ i, ¬ is_digit (input_buffer sc i)) → Forall (λ c, ¬ is_digit c) (stdin sc) →
  skip_junk fuel sc = None.
Proof.
  induction fuel as [|fuel IH]; intros sc Hbuf Hin; [done|]. cbn [skip_junk].
  rewrite (proj2 (junk_test _)) by apply Hbuf.
  assert (¬ is_digit 0) as Hzero by (unfold is_digit; lia).
  apply IH.
  - intros i. unfold advance. cbn [input_ptr set_ptr].
    destruct (_ =? input_ptr_end); [|apply Hbuf].
    assert (∀ j, ¬ is_digit (input_buffer (fread (set_ptr sc (input_ptr sc + 1))).2 j))
      as Hread.
    { intros j. unfold fread. cbn [snd input_buffer stdin set_ptr].
      destruct (decide _) as [Hj|_]; [|apply Hbuf].
      assert (Forall (λ c, ¬ is_digit c) (take (Z.to_nat (BUFFER_SIZE - 1)) (stdin sc)))
        as Htake by (by apply Forall_take).
      rewrite list.Forall_forall in Htake. apply Htake.
      apply list_elem_of_lookup_total_2. lia. }
    destruct (_ =? 0); cbn [input_buffer set_ptr set_char]; [|apply Hread].
    destruct (decide (0 = i)) as [<-|?];
      [by rewrite fn_lookup_insert|by rewrite fn_lookup_insert_ne].
  - unfold advance. cbn [input_ptr set_ptr].
    destruct (_ =? input_ptr_end); [|done].
    destruct (_ =? 0); cbn [stdin set_ptr set_char fread snd]; by apply Forall_drop.
Qed.
End ScannerFacts.

(** X6: [scan_int] reads numbers across the refills of the buffer: when the
    bytes of stdin hold the numbers [nums], each fitting an [int] and
    followed by a byte that is not a digit, as many calls of [scan_int]
    after [scan_init] return [nums]. *)
Theorem scan_ints_correct fuel bytes nums :
  reads bytes nums → Forall (λ x, x ≤ INT_MAX) nums → (length bytes < fuel)%nat →
  fst <$> scan_ints fuel (length nums) (scan_init (scanner_start bytes)) = Some nums.
Proof.
  intros Hreads _ Hfuel.
  destruct (scan_init_pending bytes) as (f0 & Hfed0 & Hpend0).
  rewrite <- Hpend0, <- (app_nil_r nums) in Hreads. rewrite <- Hpend0 in Hfuel.
  destruct (scan_ints_reads fuel nums _ f0 [] Hfed0 Hreads Hfuel) as (sc & f & -> & _).
  done.
Qed.

(** X7: From the bytes of stdin to the line printed: on bytes that hold the
    numbers of an input, each fitting an [int], each program prints what
    its [main] prints on those numbers. *)
Theorem programs_read_their_input fuel bytes n s t airports routes :
  reads bytes (input_numbers n s t airports routes) →
  Forall (λ x, x ≤ INT_MAX) (input_numbers n s t airports routes) →
  (length bytes < fuel)%nat →
  flat_program fuel bytes = Flat.main n s t airports routes ∧
  dyn_program fuel bytes = Dyn.main n s t airports routes.
Proof.
  intros Hreads _ Hfuel. unfold flat_program, dyn_program.
  by rewrite (read_input_reads fuel bytes n s t airports routes Hreads Hfuel).
Qed.

(** X8: On a stdin without any digit, the empty one included, [scan_int] never
    returns, and neither program prints. *)
Theorem no_digit_never_returns fuel bytes :
  Forall (λ c, ¬ is_digit c) bytes →
  scan_int fuel (scan_init (scanner_start bytes)) = None ∧
  flat_program fuel bytes = None ∧ dyn_program fuel bytes = None.
Proof.
  intros Hbytes.
  assert (scan_int fuel (scan_init (scanner_start bytes)) = None) as Hscan.
  { unfold scan_int. rewrite skip_junk_no_digit; [done| |].
    - intros i. unfold scan_init, fread.
      cbn [input_buffer set_ptr snd stdin set_char scanner_start].
      destruct (decide _) as [Hi|_].
      + assert (Forall (λ c, ¬ is_digit c) (take (Z.to_nat (BUFFER_SIZE - 1)) bytes))
          as Htake by (by apply Forall_take).
        rewrite list.Forall_forall in Htake. apply Htake.
        apply list_elem_of_lookup_total_2. lia.
      + unfold is_digit.
        destruct (decide (BUFFER_SIZE - 1 = i)) as [<-|?];
          [rewrite fn_lookup_insert|rewrite fn_lookup_insert_ne by done]; lia.
    - unfold scan_init, fread. cbn [stdin set_ptr snd set_char scanner_start].
      by apply Forall_drop. }
  unfold flat_program, dyn_program, read_input. by rewrite Hscan.
Qed.

(** One more number of a concrete text: the junk, the digits and the byte
    that ends them. *)
Ltac reads_number junk ds c :=
  apply (reads_more junk ds c);
  [repeat (first [apply List.Forall_nil | apply List.Forall_cons; [unfold is_digit; lia|]])
  |repeat (first [apply List.Forall_nil | apply List.Forall_cons; [unfold is_digit; lia|]])
  |discriminate
  |unfold is_digit; lia
  |].

(** Every number of a concrete list fits an [int]. *)
Ltac fits_int :=
  repeat (first [apply List.Forall_nil | apply List.Forall_cons; [unfold INT_MAX; lia|]]).

(** Three numbers with a sign, a letter and leading zeros around them
    (the bytes of ["12 -34x007 "]). *)
Lemma scan_ints_correct_witness :
  reads [49; 50; 32; 45; 51; 52; 120; 48; 48; 55; 32] [12; 34; 7] ∧
  fst <$> scan_ints 20 3 (scan_init (scanner_start
                             [49; 50; 32; 45; 51; 52; 120; 48; 48; 55; 32])) =
  Some [12; 34; 7].
Proof.
  assert (reads [49; 50; 32; 45; 51; 52; 120; 48; 48; 55; 32] [12; 34; 7]) as Hreads.
  { reads_number (@nil Z) [49; 50] 32.
    reads_number [32; 45] [51; 52] 120.
    reads_number [120] [48; 48; 55] 32.
    apply reads_done. }
  split; [exact Hreads|].
  apply (scan_ints_correct 20 _ [12; 34; 7] Hreads).
  - fits_int.
  - simpl. lia.
Defined.

(** Three cities, one route between 2 and 3, airports at 1 and 2, from 1
    to 3 (the bytes of ["3 1 2 1 3 1 2 2 3 "]). *)
Lemma programs_read_their_input_witness :
  reads [51; 32; 49; 32; 50; 32; 49; 32; 51; 32; 49; 32; 50; 32; 50; 32; 51; 32]
        (input_numbers 3 1 3 [1; 2] [(2, 3)]) ∧
  flat_program 20 [51; 32; 49; 32; 50; 32; 49; 32; 51; 32; 49; 32; 50; 32; 50; 32; 51; 32] =
    Flat.main 3 1 3 [1; 2] [(2, 3)] ∧
  dyn_program 20 [51; 32; 49; 32; 50; 32; 49; 32; 51; 32; 49; 32; 50; 32; 50; 32; 51; 32] =
    Dyn.main 3 1 3 [1; 2] [(2, 3)].
Proof.
  assert (reads [51; 32; 49; 32; 50; 32; 49; 32; 51; 32; 49; 32; 50; 32; 50; 32; 51; 32]
                (input_numbers 3 1 3 [1; 2] [(2, 3)])) as Hreads.
  { reads_number (@nil Z) [51] 32.
    reads_number [32] [49] 32.
    reads_number [32] [50] 32.
    reads_number [32] [49] 32.
    reads_number [32] [51] 32.
    reads_number [32] [49] 32.
    reads_number [32] [50] 32.
    reads_number [32] [50] 32.
    reads_number [32] [51] 32.
    apply reads_done. }
  split; [exact Hreads|].
  apply (programs_read_their_input 20 _ 3 1 3 [1; 2] [(2, 3)] Hreads).
  - unfold input_numbers. cbn [length app concat fmap list_fmap fst snd Z.of_nat].
    fits_int.
  - simpl. lia.
Defined.

(** A stdin of three letters (the bytes of ["abc"]). *)
Lemma no_digit_never_returns_witness :
  scan_int 1000 (scan_init (scanner_start [97; 98; 99])) = None ∧
  flat_program 1000 [97; 98; 99] = None ∧ dyn_program 1000 [97; 98; 99] = None.
Proof.
  apply (no_digit_never_returns 1000 [97; 98; 99]).
  repeat (first [apply List.Forall_nil | apply List.Forall_cons; [unfold is_digit; lia|]]).
Defined.

(** * More about the circular buffer *)

Section RingCapacity.
Import Ring.

Lemma peak_ge ops : ∀ len, (len ≤ peak ops len)%nat.
Proof. destruct ops as [|[x|] ops]; intros len; simpl; lia. Qed.

Lemma enqueue_capacity b x :
  size (circular_buffer_enqueue b x) = S (size b) ∧
  capacity (circular_buffer_enqueue b x) =
    (if (capacity b =? size b)%nat then capacity b * 2 else capacity b)%nat.
Proof.
  unfold circular_buffer_enqueue. by destruct (capacity b =? size b)%nat.
Qed.

Lemma ring_after_capacity cap ops : ∀ b b' p,
  wf b → (size b ≤ p)%nat →
  (∃ k, capacity b = cap * 2 ^ k)%nat →
  (capacity b = cap ∨ capacity b + 2 ≤ 2 * p)%nat →
  ring_after ops b = Some b' →
  wf b' ∧ (∃ k, capacity b' = cap * 2 ^ k)%nat ∧
  (capacity b' = cap ∨ capacity b' + 2 ≤ 2 * Nat.max p (peak ops (size b)))%nat.
Proof.
  induction ops as [|[x|] ops IH]; intros b b' p Hwf Hp Hpow Hcap Hafter.
  - injection Hafter as <-. split_and!; [done..|]. simpl. lia.
  - cbn [ring_after peak] in *.
    destruct (enqueue_spec b x Hwf) as [Hwf' _].
    destruct (enqueue_capacity b x) as [Hsz Hc].
    destruct (IH _ b' (Nat.max p (S (size b))) Hwf') as (? & ? & Hb'); [lia| | |done|].
    + rewrite Hc. destruct Hpow as [k Hk].
      destruct (capacity b =? size b)%nat; [|by exists k].
      exists (S k). rewrite Hk, Nat.pow_succ_r'. lia.
    + rewrite Hc. destruct (Nat.eqb_spec (capacity b) (size b)); lia.
    + split_and!; [done..|]. rewrite Hsz in Hb'.
      pose proof (peak_ge ops (S (size b))). lia.
  - cbn [ring_after peak] in *.
    destruct (decide (size b = 0%nat)) as [Hz|Hnz].
    { by rewrite (proj2 (dequeue_None b) Hz) in Hafter. }
    destruct (dequeue_spec b Hwf Hnz) as (item & b1 & Hd & Hwf1 & _).
    rewrite Hd in Hafter.
    assert (capacity b1 = capacity b ∧ size b1 = (size b - 1)%nat) as [Hc1 Hs1].
    { unfold circular_buffer_dequeue in Hd.
      destruct (size b =? 0)%nat; [done|]. by injection Hd as _ <-. }
    destruct (IH b1 b' p Hwf1) as (? & ? & Hb'); [lia|by rewrite Hc1|by rewrite Hc1|done|].
    split_and!; [done..|]. rewrite Hs1 in Hb'. lia.
Qed.
End RingCapacity.

(** X9: The buffer grows by doubling and only as far as needed: after any run
    of operations on a buffer made with capacity [cap], the capacity is
    [cap] times a power of two, holds the items, and is [cap] itself or at
    most twice the largest number of items held at once, less two. *)
Theorem ring_capacity_bounded cap ops buffer buffer' :
  Ring.make_circular_buffer cap = Some buffer → ring_after ops buffer = Some buffer' →
  (∃ k, Ring.capacity buffer' = cap * 2 ^ k)%nat ∧
  (Ring.size buffer' ≤ Ring.capacity buffer')%nat ∧
  (Ring.capacity buffer' = cap ∨ Ring.capacity buffer' + 2 ≤ 2 * peak ops 0)%nat.
Proof.
  intros Hmake Hafter.
  destruct (make_circular_buffer_wf cap buffer Hmake) as [Hwf _].
  assert (Ring.capacity buffer = cap ∧ Ring.size buffer = 0%nat) as [Hc Hs].
  { unfold Ring.make_circular_buffer in Hmake.
    destruct (cap =? 0)%nat; [done|]. by injection Hmake as <-. }
  destruct (ring_after_capacity cap ops buffer buffer' 0 Hwf) as (Hwf' & Hk & Hb);
    [lia|exists 0%nat; simpl; lia|by left|done|].
  split_and!; [done|by destruct Hwf' as (_ & _ & ? & _)|].
  rewrite Hs in Hb. lia.
Qed.

(** * More about the graph of [src/main.c] *)

Section FlatLayout.
Import Flat.

Lemma prefix_add (f h : Z → Z) k :
  prefix (λ c, f c + h c) k = prefix f k + prefix h k.
Proof. induction k as [|k IH]; simpl; lia. Qed.

Lemma prefix_indicator x k :
  prefix (λ c, if decide (x = c) then 1 else 0) k =
  if decide (0 ≤ x < Z.of_nat k) then 1 else 0.
Proof.
  induction k as [|k IH]; [by rewrite decide_False by lia|]. cbn [prefix]. rewrite IH.
  destruct (decide (x = Z.of_nat k)) as [->|Hne].
  - by rewrite decide_False, decide_True by lia.
  - destruct (decide (0 ≤ x < Z.of_nat k)).
    + by rewrite decide_True by lia.
    + by rewrite decide_False by lia.
Qed.

(** Each link is counted at both ends. *)
Lemma prefix_total n L :
  0 ≤ n → links_within 0 n L →
  prefix (λ c, Z.of_nat (length (ends L c))) (Z.to_nat (n + 1)) =
  2 * Z.of_nat (length L).
Proof.
  intros Hn. induction L as [|l L IH]; intros HL.
  - simpl. induction (Z.to_nat (n + 1)) as [|k IHk]; simpl; lia.
  - rewrite (prefix_ext _ (λ c, (if decide (l.1 = c) then 1 else 0) +
                                ((if decide (l.2 = c) then 1 else 0) +
                                 Z.of_nat (length (ends L c))))).
    2:{ intros c. cbn [ends]. rewrite !length_app.
        destruct (decide (l.1 = c)), (decide (l.2 = c)); simpl; lia. }
    rewrite !prefix_add, !prefix_indicator, IH.
    2:{ intros l' Hl'. apply HL. by right. }
    destruct (HL l) as [? ?]; [by left|].
    rewrite !decide_True by lia. cbn [length]. lia.
Qed.

(** The cursors and offsets [main] leaves: every degree counts the link ends
    at the city, every offset is the sum of the degrees before it. *)
Lemma flat_build_layout n s t airports routes :
  valid_input n s t airports routes →
  let D := λ c, Z.of_nat (length (ends (flat_links airports routes) c)) in
  (∀ c, degrees (build n airports routes) c = D c) ∧
  (∀ i, 0 ≤ i < n + 2 → start (build n airports routes) i = prefix D (Z.to_nat i)).
Proof.
  intros Hvalid D.
  destruct (flat_links_within n s t airports routes Hvalid) as [Hin Hne].
  destruct Hvalid as (Hs & Ht & Hn & Ha & Hr & _).
  unfold build.
  set (g1 := set_size graph (Z.to_nat (n + 1))).
  rewrite fold_tally_airport, fold_place_airport, <- !fold_left_app.
  set (Lt := (Edge 0 <$> airports) ++ edges_of routes).
  destruct (tally_all Lt g1) as (Hsz2 & Hst2 & Hnb2 & Hdg2).
  set (g2 := fold_left tally_edge Lt g1) in *.
  assert (∀ c, degrees g2 c = D c) as HD.
  { intros c'. rewrite Hdg2. unfold D, Lt, flat_links, edges_of. simpl.
    rewrite fmap_app, <- !list_fmap_compose, !ends_app, !length_app.
    replace (link_of ∘ (λ r : Z * Z, {| from := r.1; to := r.2 |}) <$> routes)
      with routes.
    2:{ rewrite <- (list_fmap_id routes) at 1. apply list_fmap_ext. by intros ? []. }
    change (link_of ∘ Edge 0) with (λ a : Z, (0, a)). simpl. lia. }
  replace (n + 2) with (Z.of_nat (Z.to_nat (n + 2))) by lia.
  destruct (offsets_spec (Z.to_nat (n + 2)) g2) as (_ & Hsz3 & Hnb3 & Hst3 & Hdg3).
  set (g3 := (fold_left offset_step _ (g2, 0)).1) in *.
  replace (edges_of routes ++ (Edge 0 <$> airports))
    with ((λ l, {| from := l.1; to := l.2 |}) <$> flat_links airports routes).
  2:{ unfold flat_links, edges_of. rewrite fmap_app, <- list_fmap_compose. done. }
  assert (∀ c', 0 < D c' → 0 ≤ c' ≤ n) as Hpos.
  { intros c' Hc'. destruct (decide (0 ≤ c' ≤ n)) as [|Hout]; [done|].
    unfold D in Hc'. rewrite (ends_outside 0 n) in Hc' by done. simpl in Hc'. lia. }
  destruct (place_all (start g3) D) with (L1 := @nil (Z * Z)) (g := g3)
                                         (L2 := flat_links airports routes)
    as (Hstart & Hdeg & _).
  - intros c1 c2 i j Hc Hi Hj.
    pose proof (Hpos c1 ltac:(lia)). pose proof (Hpos c2 ltac:(lia)).
    rewrite !Hst3, !decide_True by lia.
    rewrite (prefix_ext (degrees g2) D) by done.
    rewrite (prefix_ext (degrees g2) D _ HD).
    apply prefix_disjoint; [|lia..]. intros c'. unfold D. lia.
  - split_and!; [done| |simpl; lia].
    intros c'. rewrite Hdg3. simpl.
    destruct (decide (0 ≤ c' < Z.of_nat (Z.to_nat (n + 2)))); [done|].
    rewrite HD. unfold D. by rewrite (ends_outside 0 n) by (done || lia).
  - done.
  - intros c'. simpl. unfold D. lia.
  - split; [done|]. intros i Hi. rewrite Hstart, Hst3, decide_True by lia.
    by apply prefix_ext.
Qed.
End FlatLayout.

(** X10: The two passes lay the neighbours out without gap or overlap: the slice
    of city 0 starts at 0, the slice of each city ends where the next one
    starts, and all slices together hold two entries for every route and
    every airport, which fits the array [neighbours]. *)
Theorem flat_slices_tile n s t airports routes :
  valid_input n s t airports routes →
  let g := Flat.build n airports routes in
  Flat.start g 0 = 0 ∧
  (∀ c, 0 ≤ c ≤ n →
        0 ≤ Flat.degrees g c ∧ Flat.start g (c + 1) = Flat.start g c + Flat.degrees g c) ∧
  Flat.start g (n + 1) = 2 * (Z.of_nat (length routes) + Z.of_nat (length airports)) ∧
  Flat.start g (n + 1) ≤ 2 * Flat.MAX_ROUTES.
Proof.
  intros Hvalid g.
  assert (Flat.start g (n + 1) =
          2 * (Z.of_nat (length routes) + Z.of_nat (length airports)) →
          Flat.start g (n + 1) ≤ 2 * Flat.MAX_ROUTES) as Hfit.
  { destruct Hvalid as (_ & _ & _ & _ & _ & Hlen). lia. }
  cut (Flat.start g 0 = 0 ∧
       (∀ c, 0 ≤ c ≤ n →
             0 ≤ Flat.degrees g c ∧
             Flat.start g (c + 1) = Flat.start g c + Flat.degrees g c) ∧
       Flat.start g (n + 1) =
         2 * (Z.of_nat (length routes) + Z.of_nat (length airports))).
  { intros (? & ? & ?). split_and!; [done..|by apply Hfit]. }
  clear Hfit.
  destruct (flat_build_layout n s t airports routes Hvalid) as [Hdeg Hstart].
  destruct (flat_links_within n s t airports routes Hvalid) as [Hin _].
  pose proof Hvalid as (Hs & _).
  subst g. split_and!.
  - by rewrite (Hstart 0) by lia.
  - intros c Hc. rewrite !Hstart, Hdeg by lia. split; [lia|].
    replace (Z.to_nat (c + 1)) with (S (Z.to_nat c)) by lia.
    cbn [prefix]. by rewrite Z2Nat.id by lia.
  - rewrite Hstart by lia. rewrite (prefix_total n) by (done || lia).
    unfold flat_links. rewrite length_app, length_fmap. lia.
Qed.

(** X11: What the graph of [src/main.c] holds: the neighbours of a city are its
    partners in the routes, in input order, followed by the hub 0 for each
    time the city is listed as an airport; so [v] is a neighbour of [u]
    exactly when a route joins them or one is the hub and the other an
    airport. *)
Theorem flat_build_neighbours n s t airports routes u v :
  valid_input n s t airports routes →
  adj (Flat.build n airports routes) u = ends (flat_links airports routes) u ∧
  (v ∈ adj (Flat.build n airports routes) u ↔
   (u, v) ∈ routes ∨ (v, u) ∈ routes ∨ (u = 0 ∧ v ∈ airports) ∨ (v = 0 ∧ u ∈ airports)).
Proof.
  intros Hvalid. rewrite (flat_build_adj n s t) by done. split; [done|].
  rewrite elem_of_ends. unfold flat_links. split.
  - intros (l & [Hl|(a & -> & Hl)%list_elem_of_fmap]%elem_of_app & Hor).
    + destruct l as [x y]. simpl in Hor. destruct Hor as [[-> ->]|[-> ->]]; auto.
    + simpl in Hor. destruct Hor as [[<- <-]|[<- <-]]; auto.
  - intros [H|[H|[[-> H]|[-> H]]]].
    + exists (u, v). rewrite elem_of_app. auto.
    + exists (v, u). rewrite elem_of_app. auto.
    + exists (0, v). rewrite elem_of_app, list_elem_of_fmap. split; [|auto]. right. eauto.
    + exists (0, u). rewrite elem_of_app, list_elem_of_fmap. split; [|auto]. right. eauto.
Qed.

(** * More about the graph of [src/unnamed/part_000] *)

(** X12: What the graph of [part_000] holds, with cities renumbered from 0 and
    the hub at [n]: the neighbours of a city are the hub for each time it is
    listed as an airport, followed by its partners in the routes. *)
Theorem dyn_build_neighbours n s t airports routes u v :
  valid_input n s t airports routes →
  Dyn.size (Dyn.build n airports routes) = Z.to_nat (n + 1) ∧
  adj (Dyn.build n airports routes) u = ends (dyn_links n airports routes) u ∧
  (v ∈ adj (Dyn.build n airports routes) u ↔
   (u + 1, v + 1) ∈ routes ∨ (v + 1, u + 1) ∈ routes ∨
   (v = n ∧ u + 1 ∈ airports) ∨ (u = n ∧ v + 1 ∈ airports)).
Proof.
  intros Hvalid. destruct (dyn_build_adj n s t airports routes Hvalid) as [Hsz Hadj].
  rewrite Hadj. split_and!; [done..|].
  rewrite elem_of_ends. unfold dyn_links. split.
  - intros (l & [(a & -> & Hl)%list_elem_of_fmap|(r & -> & Hl)%list_elem_of_fmap]%elem_of_app
              & Hor); simpl in Hor.
    + destruct Hor as [[<- <-]|[<- <-]].
      * right; right; left. split; [done|]. by replace (a - 1 + 1) with a by lia.
      * right; right; right. split; [done|]. by replace (a - 1 + 1) with a by lia.
    + destruct r as [x y]. simpl in Hor.
      destruct Hor as [[<- <-]|[<- <-]].
      * left. by replace (x - 1 + 1) with x by lia; replace (y - 1 + 1) with y by lia.
      * right; left.
        by replace (x - 1 + 1) with x by lia; replace (y - 1 + 1) with y by lia.
  - intros [H|[H|[[-> H]|[-> H]]]].
    + exists (u, v). rewrite elem_of_app, !list_elem_of_fmap. split; [|auto].
      right. exists (u + 1, v + 1). split; [simpl; f_equal; lia|done].
    + exists (v, u). rewrite elem_of_app, !list_elem_of_fmap. split; [|auto].
      right. exists (v + 1, u + 1). split; [simpl; f_equal; lia|done].
    + exists (u, n). rewrite elem_of_app, !list_elem_of_fmap. split; [|auto].
      left. exists (u + 1). split; [f_equal; lia|done].
    + exists (v, n). rewrite elem_of_app, !list_elem_of_fmap. split; [|auto].
      left. exists (v + 1). split; [f_equal; lia|done].
Qed.

Section DynCapacity.
Import Dyn.

Lemma ensure_capacity_room g city c :
  0 ≤ degree g c ≤ capacity g c →
  (capacity g c = Z.of_nat DEFAULT_CAPACITY ∨ capacity g c ≤ 2 * (degree g c - 1)) →
  let g' := graph_ensure_capacity g city in
  degree g' c = degree g c ∧
  capacity g c ≤ capacity g' c ∧
  (c = city → degree g' c < capacity g' c ∧
              (capacity g' c = Z.of_nat DEFAULT_CAPACITY ∨ capacity g' c ≤ 2 * degree g' c)) ∧
  (c ≠ city → capacity g' c = capacity g c).
Proof.
  intros Hd Hc. unfold graph_ensure_capacity, DEFAULT_CAPACITY in *.
  destruct (Z.eqb_spec (capacity g city) (degree g city)) as [Heq|Hne]; cbn [degree capacity].
  - split_and!; [done| | |].
    + destruct (decide (city = c)) as [->|?];
        [rewrite fn_lookup_insert|rewrite fn_lookup_insert_ne by done]; lia.
    + intros ->. rewrite fn_lookup_insert. lia.
    + intros Hcc. by rewrite fn_lookup_insert_ne by done.
  - split_and!; [done|lia| |done]. intros ->. lia.
Qed.

Lemma make_graph_roomy sz : roomy (make_graph sz).
Proof.
  unfold make_graph.
  assert (∀ idx g c, c ∈ idx →
            degree (fold_left init_node idx g) c = 0 ∧
            capacity (fold_left init_node idx g) c = Z.of_nat DEFAULT_CAPACITY) as Hnode.
  { induction idx as [|i idx IH] using rev_ind; intros g c Hc; [by apply elem_of_nil in Hc|].
    rewrite fold_left_app. cbn [fold_left init_node degree capacity].
    destruct (decide (i = c)) as [->|Hne].
    - by rewrite !fn_lookup_insert.
    - rewrite !fn_lookup_insert_ne by done. apply IH.
      apply elem_of_app in Hc as [?|?%list_elem_of_singleton]; [done|congruence]. }
  intros c Hc.
  destruct (init_node_degree (seqZ 0 (Z.of_nat sz))
              {| size := sz; capacity := λ _, 0; degree := λ _, 0;
                 neighbours := λ _ _, 0 |}) as [Hsz _]; [done|].
  rewrite Hsz in Hc. cbn [size] in Hc.
  destruct (Hnode (seqZ 0 (Z.of_nat sz))
              {| size := sz; capacity := λ _, 0; degree := λ _, 0;
                 neighbours := λ _ _, 0 |} c) as [-> ->];
    [apply elem_of_seqZ; lia|].
  unfold DEFAULT_CAPACITY. lia.
Qed.
End DynCapacity.

Lemma add_railway_room g from until :
  roomy g → from ≠ until →
  0 ≤ from < Z.of_nat (Dyn.size g) → 0 ≤ until < Z.of_nat (Dyn.size g) →
  let g2 := Dyn.graph_ensure_capacity (Dyn.graph_ensure_capacity g from) until in
  0 ≤ Dyn.degree g2 from < Dyn.capacity g2 from ∧
  0 ≤ Dyn.degree g2 until < Dyn.capacity g2 until ∧
  roomy (Dyn.graph_add_railway g from until).
Proof.
  intros Hroomy Hne Hfrom Huntil g2.
  set (g1 := Dyn.graph_ensure_capacity g from) in *.
  assert (Dyn.size g1 = Dyn.size g ∧ Dyn.size g2 = Dyn.size g) as [Hs1 Hs2].
  { unfold g2, g1.
    destruct (ensure_capacity_same (Dyn.graph_ensure_capacity g from) until) as (-> & _).
    by destruct (ensure_capacity_same g from) as (-> & _). }
  assert (∀ c, 0 ≤ c < Z.of_nat (Dyn.size g) →
            0 ≤ Dyn.degree g2 c ≤ Dyn.capacity g2 c ∧
            Dyn.degree g2 c = Dyn.degree g c ∧
            (Dyn.capacity g2 c = Z.of_nat DEFAULT_CAPACITY ∨
             Dyn.capacity g2 c ≤ 2 * (Dyn.degree g2 c - 1) ∨
             ((c = from ∨ c = until) ∧ Dyn.capacity g2 c ≤ 2 * Dyn.degree g2 c)) ∧
            ((c = from ∨ c = until) → Dyn.degree g2 c < Dyn.capacity g2 c)) as Hall.
  { intros c Hc. destruct (Hroomy c Hc) as [Hd Hcap].
    destruct (ensure_capacity_room g from c Hd Hcap) as (Hd1 & Hc1 & Hat1 & Hoff1).
    fold g1 in Hd1, Hc1, Hat1, Hoff1.
    assert (0 ≤ Dyn.degree g1 c ≤ Dyn.capacity g1 c) as Hd1' by lia.
    assert (Dyn.capacity g1 c = Z.of_nat DEFAULT_CAPACITY ∨
            Dyn.capacity g1 c ≤ 2 * (Dyn.degree g1 c - 1) ∨
            (c = from ∧ Dyn.capacity g1 c ≤ 2 * Dyn.degree g1 c)) as Hcap1.
    { destruct (decide (c = from)) as [Hcf|Hcf].
      - destruct (Hat1 Hcf) as [_ [?|?]]; auto.
      - rewrite (Hoff1 Hcf), Hd1. destruct Hcap; auto. }
    destruct (decide (c = until)) as [Hcu|Hcu].
    - assert (c ≠ from) as Hcf by congruence.
      assert (Dyn.capacity g1 c = Z.of_nat DEFAULT_CAPACITY ∨
              Dyn.capacity g1 c ≤ 2 * (Dyn.degree g1 c - 1)) as Hcap1'.
      { destruct Hcap1 as [?|[?|[? _]]]; auto. done. }
      destruct (ensure_capacity_room g1 until c Hd1' Hcap1') as (Hd2 & Hc2 & Hat2 & _).
      fold g2 in Hd2, Hc2, Hat2. destruct (Hat2 Hcu) as [Hlt Hor].
      split_and!; [lia|lia|congruence| |auto].
      destruct Hor; auto.
    - assert (Dyn.degree g2 c = Dyn.degree g1 c ∧ Dyn.capacity g2 c = Dyn.capacity g1 c)
        as [Hd2 Hc2].
      { unfold g2, Dyn.graph_ensure_capacity.
        destruct (_ =? _); [|done]. cbn [Dyn.degree Dyn.capacity].
        by rewrite fn_lookup_insert_ne by done. }
      rewrite Hd2, Hc2. split_and!; [lia|lia|congruence| |].
      + destruct Hcap1 as [?|[?|[? ?]]]; auto.
      + intros [Hcf|?]; [|done]. by destruct (Hat1 Hcf). }
  destruct (Hall from Hfrom) as (Hdf & _ & _ & Hltf).
  destruct (Hall until Huntil) as (Hdu & _ & _ & Hltu).
  split_and!; [lia|by apply Hltf; left|lia|by apply Hltu; right|].
  intros c Hc.
  assert (Dyn.size (Dyn.graph_add_railway g from until) = Dyn.size g) as Hsz by done.
  rewrite Hsz in Hc. destruct (Hall c Hc) as (Hd & Hsame & Hcap & Hlt).
  unfold Dyn.graph_add_railway. fold g1. fold g2.
  unfold Dyn.set_neighbour, Dyn.set_degree. cbn [Dyn.degree Dyn.capacity].
  destruct (decide (until = c)) as [->|Hcu].
  - rewrite fn_lookup_insert, fn_lookup_insert_ne by done.
    specialize (Hlt ltac:(by right)). split; [lia|].
    destruct Hcap as [?|[?|[_ ?]]]; [by left|right; lia..].
  - rewrite fn_lookup_insert_ne by done.
    destruct (decide (from = c)) as [->|Hcf].
    + rewrite fn_lookup_insert. specialize (Hlt ltac:(by left)). split; [lia|].
      destruct Hcap as [?|[?|[_ ?]]]; [by left|right; lia..].
    + rewrite fn_lookup_insert_ne by done. split; [lia|].
      destruct Hcap as [?|[?|[[?|?] _]]]; [by left|by right|congruence..].
Qed.

Lemma add_railway_size g a b : Dyn.size (Dyn.graph_add_railway g a b) = Dyn.size g.
Proof.
  unfold Dyn.graph_add_railway, Dyn.set_degree, Dyn.set_neighbour. cbn [Dyn.size].
  destruct (ensure_capacity_same (Dyn.graph_ensure_capacity g a) b) as (-> & _).
  by destruct (ensure_capacity_same g a) as (-> & _).
Qed.

Lemma roomy_fold {X} (step : Dyn.graph_t → X → Dyn.graph_t) (f : X → Z * Z) sz L :
  (∀ g x, Dyn.size g = sz → step g x = Dyn.graph_add_railway g (f x).1 (f x).2) →
  (∀ x, x ∈ L → (f x).1 ≠ (f x).2 ∧ 0 ≤ (f x).1 < Z.of_nat sz ∧ 0 ≤ (f x).2 < Z.of_nat sz) →
  ∀ g, Dyn.size g = sz → roomy g →
  Dyn.size (fold_left step L g) = sz ∧ roomy (fold_left step L g).
Proof.
  intros Hstep. induction L as [|x L IH]; intros HL g Hsz Hg; [done|].
  cbn [fold_left]. rewrite Hstep by done.
  destruct (HL x) as (Hne & H1 & H2); [by left|].
  apply IH.
  - intros x' Hx'. apply HL. by right.
  - by rewrite add_railway_size.
  - apply add_railway_room; [done..|by rewrite Hsz|by rewrite Hsz].
Qed.

(** X13: [graph_add_railway] writes inside the arrays: when every node has room
    and the two cities differ, after the two calls of
    [graph_ensure_capacity] both degrees are below their capacities, which
    is where the two neighbours are written, and every node has room again
    afterwards. *)
Theorem add_railway_in_bounds g from until :
  roomy g → from ≠ until →
  0 ≤ from < Z.of_nat (Dyn.size g) → 0 ≤ until < Z.of_nat (Dyn.size g) →
  let g2 := Dyn.graph_ensure_capacity (Dyn.graph_ensure_capacity g from) until in
  0 ≤ Dyn.degree g2 from < Dyn.capacity g2 from ∧
  0 ≤ Dyn.degree g2 until < Dyn.capacity g2 until ∧
  roomy (Dyn.graph_add_railway g from until).
Proof. apply add_railway_room. Qed.

(** A fresh graph of three nodes, a railway between nodes 0 and 2. *)
Lemma add_railway_in_bounds_witness :
  0 ≤ Dyn.degree (Dyn.graph_ensure_capacity
                    (Dyn.graph_ensure_capacity (Dyn.make_graph 3) 0) 2) 0
    < Dyn.capacity (Dyn.graph_ensure_capacity
                      (Dyn.graph_ensure_capacity (Dyn.make_graph 3) 0) 2) 0 ∧
  0 ≤ Dyn.degree (Dyn.graph_ensure_capacity
                    (Dyn.graph_ensure_capacity (Dyn.make_graph 3) 0) 2) 2
    < Dyn.capacity (Dyn.graph_ensure_capacity
                      (Dyn.graph_ensure_capacity (Dyn.make_graph 3) 0) 2) 2 ∧
  roomy (Dyn.graph_add_railway (Dyn.make_graph 3) 0 2).
Proof.
  apply (add_railway_in_bounds (Dyn.make_graph 3) 0 2).
  - apply make_graph_roomy.
  - lia.
  - simpl. lia.
  - simpl. lia.
Defined.

(** X14: On a valid input [part_000] keeps every degree within the capacity
    of its array: in the graph it has built the degree of every node is at
    most its capacity, and a capacity other than the first one is at most
    twice the degree, less two. *)
Theorem dyn_build_roomy n s t airports routes :
  valid_input n s t airports routes → roomy (Dyn.build n airports routes).
Proof.
  intros (Hs & Ht & Hn & Ha & Hr & _). unfold Dyn.build.
  destruct (make_graph_holds (Z.to_nat (n + 1))) as [Hsz0 _].
  pose proof (make_graph_roomy (Z.to_nat (n + 1))) as Hroomy0.
  destruct (roomy_fold (λ g tmp, Dyn.graph_add_airport g (tmp - 1)) (λ a, (a - 1, n))
              (Z.to_nat (n + 1)) airports) with (g := Dyn.make_graph (Z.to_nat (n + 1)))
    as [Hsz1 Hroomy1]; [| |done|done|].
  { intros g x Hg. unfold Dyn.graph_add_airport. rewrite Hg. simpl. f_equal. lia. }
  { intros a Ha'. specialize (Ha a Ha'). simpl. lia. }
  eapply (roomy_fold (λ g r, Dyn.graph_add_railway g (r.1 - 1) (r.2 - 1))
            (λ r, (r.1 - 1, r.2 - 1)) (Z.to_nat (n + 1)) routes); [done| |done..].
  intros r Hr'. specialize (Hr r Hr'). simpl. lia.
Qed.

(** Five cities, a triangle of routes and airports at 2 and 5. *)
Lemma dyn_build_roomy_witness :
  roomy (Dyn.build 5 [2; 5] [(1, 2); (2, 3); (3, 1)]).
Proof.
  assert (valid_input 5 1 5 [2; 5] [(1, 2); (2, 3); (3, 1)]) as Hvalid by check_input.
  exact (dyn_build_roomy 5 1 5 [2; 5] [(1, 2); (2, 3); (3, 1)] Hvalid).
Defined.

(** X15: A railway from a city to itself is written once and counted twice: both
    writes go to the entry at the old degree, the next entry keeps what it
    held, and the degree grows by two; when one entry was free, the degree
    ends above the capacity. *)
Theorem add_railway_self_loop g c :
  Dyn.degree g c + 1 = Dyn.capacity g c →
  let g' := Dyn.graph_add_railway g c c in
  Dyn.neighbours g' c (Dyn.degree g c) = c ∧
  Dyn.neighbours g' c (Dyn.degree g c + 1) = Dyn.neighbours g c (Dyn.degree g c + 1) ∧
  Dyn.degree g' c = Dyn.degree g c + 2 ∧
  Dyn.capacity g' c = Dyn.capacity g c ∧
  Dyn.capacity g' c < Dyn.degree g' c.
Proof.
  intros Hfree. unfold Dyn.graph_add_railway, Dyn.graph_ensure_capacity.
  destruct (Z.eqb_spec (Dyn.capacity g c) (Dyn.degree g c)) as [Heq|_]; [lia|].
  destruct (Z.eqb_spec (Dyn.capacity g c) (Dyn.degree g c)) as [Heq|_]; [lia|].
  unfold Dyn.set_neighbour, Dyn.set_degree. cbn [Dyn.degree Dyn.capacity Dyn.neighbours].
  rewrite !fn_lookup_insert. rewrite fn_lookup_insert_ne by lia.
  rewrite fn_lookup_insert_ne by lia. split_and!; [done|done|lia|done|lia].
Qed.

(** A node with 127 neighbours in its array of 128. *)
Lemma add_railway_self_loop_witness :
  Dyn.degree (fold_left (λ g _, Dyn.graph_add_railway g 0 1) (seq 0 127) (Dyn.make_graph 2)) 0
    + 1 =
  Dyn.capacity (fold_left (λ g _, Dyn.graph_add_railway g 0 1) (seq 0 127) (Dyn.make_graph 2)) 0 ∧
  Dyn.capacity (Dyn.graph_add_railway
      (fold_left (λ g _, Dyn.graph_add_railway g 0 1) (seq 0 127) (Dyn.make_graph 2)) 0 0) 0 <
  Dyn.degree (Dyn.graph_add_railway
      (fold_left (λ g _, Dyn.graph_add_railway g 0 1) (seq 0 127) (Dyn.make_graph 2)) 0 0) 0.
Proof.
  assert (Dyn.degree (fold_left (λ g _, Dyn.graph_add_railway g 0 1) (seq 0 127)
                        (Dyn.make_graph 2)) 0 + 1 =
          Dyn.capacity (fold_left (λ g _, Dyn.graph_add_railway g 0 1) (seq 0 127)
                          (Dyn.make_graph 2)) 0) as Hfree by (vm_compute; reflexivity).
  split; [exact Hfree|].
  apply (add_railway_self_loop _ 0 Hfree).
Defined.

(** * The whole programs *)

Section InputOrder.

Lemma ends_perm L1 L2 u v : L1 ≡ₚ L2 → v ∈ ends L1 u ↔ v ∈ ends L2 u.
Proof.
  intros HL. rewrite !elem_of_ends. by setoid_rewrite HL.
Qed.

Lemma valid_input_perm n s t airports routes airports' routes' :
  airports ≡ₚ airports' → routes ≡ₚ routes' →
  valid_input n s t airports routes → valid_input n s t airports' routes'.
Proof.
  intros Ha Hr (? & ? & ? & Hair & Hroute & Hlen).
  unfold valid_input. split_and!; [lia..| | |].
  - intros a Hin. apply Hair. by rewrite Ha.
  - intros r Hin. apply Hroute. by rewrite Hr.
  - by rewrite <- Ha, <- Hr.
Qed.

Lemma flat_main_perm n s t airports routes airports' routes' :
  valid_input n s t airports routes →
  airports ≡ₚ airports' → routes ≡ₚ routes' →
  Flat.main n s t airports' routes' = Flat.main n s t airports routes.
Proof.
  intros Hvalid Ha Hr.
  pose proof (valid_input_perm n s t _ _ _ _ Ha Hr Hvalid) as Hvalid'.
  unfold Flat.main. f_equal.
  apply solve_ext.
  - exact (flat_in_range n s t _ _ Hvalid').
  - exact (flat_in_range n s t _ _ Hvalid).
  - intros u v. rewrite !(flat_build_adj n s t) by done.
    apply ends_perm. unfold flat_links. by rewrite Ha, Hr.
  - destruct Hvalid as (? & _). lia.
Qed.
End InputOrder.

(** X16: The order in which the input lists the airports and the routes does not
    change what either program prints. *)
Theorem input_order_irrelevant n s t airports routes airports' routes' :
  valid_input n s t airports routes →
  airports ≡ₚ airports' → routes ≡ₚ routes' →
  Flat.main n s t airports' routes' = Flat.main n s t airports routes ∧
  Dyn.main n s t airports' routes' = Dyn.main n s t airports routes.
Proof.
  intros Hvalid Ha Hr.
  pose proof (valid_input_perm n s t _ _ _ _ Ha Hr Hvalid) as Hvalid'.
  pose proof (flat_main_perm n s t _ _ _ _ Hvalid Ha Hr) as Hflat.
  split; [done|].
  destruct (mains_same n s t airports routes Hvalid) as (r & _ & Hf & ->).
  destruct (mains_same n s t airports' routes' Hvalid') as (r' & _ & Hf' & ->).
  congruence.
Qed.

(** Five cities, a triangle of routes and airports at 2 and 5, listed in
    two orders. *)
Lemma input_order_irrelevant_witness :
  Flat.main 5 1 5 [5; 2] [(2, 3); (1, 2); (3, 1)] =
    Flat.main 5 1 5 [2; 5] [(1, 2); (2, 3); (3, 1)] ∧
  Dyn.main 5 1 5 [5; 2] [(2, 3); (1, 2); (3, 1)] =
    Dyn.main 5 1 5 [2; 5] [(1, 2); (2, 3); (3, 1)].
Proof.
  assert (valid_input 5 1 5 [2; 5] [(1, 2); (2, 3); (3, 1)]) as Hvalid by check_input.
  apply (input_order_irrelevant 5 1 5 [2; 5] [(1, 2); (2, 3); (3, 1)] _ _ Hvalid).
  - apply perm_swap.
  - apply perm_swap.
Defined.

(** Two graphs built from the same routes and airports in two orders. *)
Lemma solve_same_neighbours_witness :
  solve (Flat.build 5 [5; 2] [(2, 3); (1, 2); (3, 1)]) 1 5 =
  solve (Flat.build 5 [2; 5] [(1, 2); (2, 3); (3, 1)]) 1 5.
Proof.
  assert (valid_input 5 1 5 [2; 5] [(1, 2); (2, 3); (3, 1)]) as Hvalid by check_input.
  assert (valid_input 5 1 5 [5; 2] [(2, 3); (1, 2); (3, 1)]) as Hvalid' by check_input.
  apply (solve_same_neighbours (Flat.build 5 [5; 2] [(2, 3); (1, 2); (3, 1)])
           (Flat.build 5 [2; 5] [(1, 2); (2, 3); (3, 1)]) 1 5).
  - exact (flat_in_range 5 1 5 _ _ Hvalid').
  - exact (flat_in_range 5 1 5 _ _ Hvalid).
  - intros u v. rewrite (flat_build_adj 5 1 5 _ _ _ Hvalid').
    rewrite (flat_build_adj 5 1 5 _ _ _ Hvalid).
    apply ends_perm. unfold flat_links.
    apply Permutation_app; [apply perm_swap|apply (fmap_Permutation _), perm_swap].
  - lia.
Defined.

(** Witnesses of the theorems on the two builds: five cities, a triangle of
    routes and airports at 2 and 5. *)
Lemma flat_slices_tile_witness :
  Flat.start (Flat.build 5 [2; 5] [(1, 2); (2, 3); (3, 1)]) 0 = 0.
Proof.
  assert (valid_input 5 1 5 [2; 5] [(1, 2); (2, 3); (3, 1)]) as Hvalid by check_input.
  exact (proj1 (flat_slices_tile 5 1 5 [2; 5] [(1, 2); (2, 3); (3, 1)] Hvalid)).
Defined.

(** The neighbours of city 2 on the same input. *)
Lemma flat_build_neighbours_witness :
  adj (Flat.build 5 [2; 5] [(1, 2); (2, 3); (3, 1)]) 2 =
  ends (flat_links [2; 5] [(1, 2); (2, 3); (3, 1)]) 2.
Proof.
  assert (valid_input 5 1 5 [2; 5] [(1, 2); (2, 3); (3, 1)]) as Hvalid by check_input.
  exact (proj1 (flat_build_neighbours 5 1 5 [2; 5] [(1, 2); (2, 3); (3, 1)] 2 0 Hvalid)).
Defined.

(** The neighbours of node 1 on the same input. *)
Lemma dyn_build_neighbours_witness :
  adj (Dyn.build 5 [2; 5] [(1, 2); (2, 3); (3, 1)]) 1 =
  ends (dyn_links 5 [2; 5] [(1, 2); (2, 3); (3, 1)]) 1.
Proof.
  assert (valid_input 5 1 5 [2; 5] [(1, 2); (2, 3); (3, 1)]) as Hvalid by check_input.
  exact (proj1 (proj2
    (dyn_build_neighbours 5 1 5 [2; 5] [(1, 2); (2, 3); (3, 1)] 1 5 Hvalid))).
Defined.

(** Three items through a buffer of capacity 2: one doubling. *)
Lemma ring_capacity_bounded_witness :
  ∃ buffer buffer',
    Ring.make_circular_buffer 2 = Some buffer ∧
    ring_after [Ring.Enqueue 1; Ring.Enqueue 2; Ring.Enqueue 3; Ring.Dequeue] buffer =
      Some buffer' ∧
    (Ring.size buffer' ≤ Ring.capacity buffer')%nat.
Proof.
  destruct (Ring.make_circular_buffer 2) as [buffer|] eqn:Hmake;
    [|vm_compute in Hmake; discriminate Hmake].
  destruct (ring_after [Ring.Enqueue 1; Ring.Enqueue 2; Ring.Enqueue 3; Ring.Dequeue] buffer)
    as [buffer'|] eqn:Hafter.
  - exists buffer, buffer'. split; [reflexivity|]. split; [exact Hafter|].
    exact (proj1 (proj2 (ring_capacity_bounded 2 _ buffer buffer' Hmake Hafter))).
  - vm_compute in Hmake. injection Hmake as <-. vm_compute in Hafter. discriminate Hafter.
Defined.

(** * The line printed *)

Section Printing.

Lemma append_newline_inj (a b : string) :
  (a ++ newline)%string = (b ++ newline)%string → a = b.
Proof.
  revert b. induction a as [|x a IH]; intros [|y b] Heq; simpl in Heq.
  - done.
  - injection Heq as _ Heq. destruct b; discriminate Heq.
  - injection Heq as _ Heq. destruct a; discriminate Heq.
  - injection Heq as -> Heq. f_equal. by apply IH.
Qed.

Lemma to_int_parses r :
  NilZero.int_of_string (NilZero.string_of_int (Z.to_int r)) = Some (Z.to_int r).
Proof.
  apply NilZero.isi.
  - intros Heq. assert (r = 0) as -> by (by rewrite <- (DecimalZ.of_to r), Heq).
    discriminate Heq.
  - intros Heq. assert (r = 0) as -> by (by rewrite <- (DecimalZ.of_to r), Heq).
    discriminate Heq.
Qed.
End Printing.

(** X17: The line printed tells the result: [main] prints different lines for
    different results of [solve], and the line [Impossible] for
    [IMPOSSIBLE] only. *)
Theorem print_result_injective r1 r2 :
  r1 ≠ r2 → print_result r1 ≠ print_result r2.
Proof.
  intros Hne Hsame. apply Hne. revert Hsame.
  assert (∀ r, (NilZero.string_of_int (Z.to_int r) ++ newline)%string ≠
               ("Impossible" ++ newline)%string) as Hword.
  { intros r Heq%append_newline_inj.
    pose proof (to_int_parses r) as Hparse. rewrite Heq in Hparse. discriminate Hparse. }
  unfold print_result.
  destruct (Z.eqb_spec r1 IMPOSSIBLE) as [->|H1], (Z.eqb_spec r2 IMPOSSIBLE) as [->|H2];
    intros Heq.
  - done.
  - symmetry in Heq. by apply Hword in Heq.
  - by apply Hword in Heq.
  - apply append_newline_inj in Heq.
    apply DecimalZ.to_int_inj.
    pose proof (to_int_parses r1) as Hp1. rewrite Heq, to_int_parses in Hp1. congruence.
Qed.

(** The lines for two hops and for no trip at all. *)
Lemma print_result_injective_witness :
  print_result 2 ≠ print_result IMPOSSIBLE.
Proof.
  apply (print_result_injective 2 IMPOSSIBLE). unfold IMPOSSIBLE. lia.
Defined.
